(** * flametrace: the strace parser and the collapser of [core.py]

    A shallow embedding of [src/flametrace/core.py]: the Python string
    operations the parser relies on, [StraceParser], [SyscallCounter],
    [Process] and [Collapser], followed by the properties of the
    specification that were checked against them.

    Conventions of the embedding.
    - A Python [str] is a [string] of bytes (ASCII text, as strace prints).
    - A [timedelta] and a [datetime] are integers counting microseconds
      (the resolution of both Python types); their range limits are not
      modelled.
    - A Python [float] is a binary64 value of [SpecFloat].
    - Python objects that are mutated through several references
      ([Process] instances and their [syscalls] dictionaries) live in two
      stores addressed by location; a reference is a location. *)

From Stdlib Require Import ZArith String Ascii List Bool Lia.
From Stdlib Require Import Numbers.DecimalString Floats.SpecFloat.
From stdpp Require Import gmap strings list.

Open Scope Z_scope.

(** ** Outcomes of Python code *)

Inductive exn :=
  | KeyError | ValueError | IndexError | AssertionError | TypeError
  | SyntaxError.

(** [Ret] is a normal return and [Raise] an exception that leaves the
    function.  [Undefined] is an outcome of the model only: a dangling
    location or an exhausted recursion bound, neither of which a state
    built by the program can show (see [wf_handle_call_defined]). *)
Inductive result (A : Type) :=
  | Ret (a : A)
  | Raise (e : exn)
  | Undefined.
Arguments Ret {A} a.
Arguments Raise {A} e.
Arguments Undefined {A}.

#[global] Instance result_ret : MRet result := λ A a, Ret a.
#[global] Instance result_bind : MBind result := λ A B k r,
  match r with
  | Ret a => k a
  | Raise e => Raise e
  | Undefined => Undefined
  end.

(** [None] becomes the exception [e]. *)
Definition or_raise {A} (e : exn) (o : option A) : result A :=
  match o with
  | Some a => Ret a
  | None => Raise e
  end.

(** ** Python string operations *)

Module PyStr.

Definition dquote : string := String (ascii_of_nat 34) EmptyString.

(** [str.isspace] on one ASCII character. *)
Definition is_space (c : ascii) : bool :=
  let n := nat_of_ascii c in
  ((9 <=? n)%nat && (n <=? 13)%nat) || ((28 <=? n)%nat && (n <=? 32)%nat).

Definition startswith (s p : string) : bool := String.prefix p s.

(** [s[n:]] and [s[:n]] for a non-negative [n]. *)
Fixpoint drop (n : nat) (s : string) : string :=
  match n, s with
  | O, _ => s
  | S n', String _ s' => drop n' s'
  | S _, EmptyString => EmptyString
  end.

Fixpoint take (n : nat) (s : string) : string :=
  match n, s with
  | S n', String c s' => String c (take n' s')
  | _, _ => EmptyString
  end.

(** [s[:-n]] and [s[-n:]] for a positive [n]. *)
Definition drop_end (n : nat) (s : string) : string :=
  take (String.length s - n) s.

Definition take_end (n : nat) (s : string) : string :=
  drop (String.length s - n) s.

(** [s[a:b]] for non-negative [a] and [b]. *)
Definition slice (a b : nat) (s : string) : string :=
  take (b - a) (drop a s).

Definition endswith (s suf : string) : bool :=
  String.eqb (take_end (String.length suf) s) suf
  && (String.length suf <=? String.length s)%nat.

(** [s.split(sep, 1)] and [s.rsplit(sep, 1)] for a non-empty [sep]:
    [None] when [sep] does not occur (Python then returns the
    one-element list [[s]]), else the text before and after the first,
    respectively the last, occurrence. *)
Fixpoint split1 (sep s : string) : option (string * string) :=
  if String.prefix sep s then Some (EmptyString, drop (String.length sep) s)
  else match s with
       | EmptyString => None
       | String c s' =>
           match split1 sep s' with
           | Some (a, b) => Some (String c a, b)
           | None => None
           end
       end.

Fixpoint rsplit1 (sep s : string) : option (string * string) :=
  match s with
  | EmptyString => None
  | String c s' =>
      match rsplit1 sep s' with
      | Some (a, b) => Some (String c a, b)
      | None =>
          if String.prefix sep s
          then Some (EmptyString, drop (String.length sep) s)
          else None
      end
  end.

(** The first element of [s.split(sep, 1)] or of [s.split(sep)]. *)
Definition split_head (sep s : string) : string :=
  match split1 sep s with
  | Some (a, _) => a
  | None => s
  end.

(** The first element of [s.rsplit(sep, 1)]. *)
Definition rsplit_head (sep s : string) : string :=
  match rsplit1 sep s with
  | Some (a, _) => a
  | None => s
  end.

Fixpoint lstrip (s : string) : string :=
  match s with
  | String c s' => if is_space c then lstrip s' else s
  | EmptyString => EmptyString
  end.

Fixpoint rstrip (s : string) : string :=
  match s with
  | String c s' =>
      match rstrip s' with
      | EmptyString => if is_space c then EmptyString else String c EmptyString
      | r => String c r
      end
  | EmptyString => EmptyString
  end.

Definition strip (s : string) : string := rstrip (lstrip s).

(** The maximal prefix without whitespace, and what follows it. *)
Fixpoint span_word (s : string) : string * string :=
  match s with
  | String c s' =>
      if is_space c then (EmptyString, s)
      else let '(w, r) := span_word s' in (String c w, r)
  | EmptyString => (EmptyString, EmptyString)
  end.

(** [s.split(None, maxsplit)]: split on runs of whitespace, at most
    [maxsplit] times; the remainder, stripped on the left only, is the
    last element when it is not empty. *)
Fixpoint split_ws (maxsplit : nat) (s : string) : list string :=
  let s := lstrip s in
  match s with
  | EmptyString => []
  | _ =>
      match maxsplit with
      | O => [s]
      | S m => let '(w, r) := span_word s in w :: split_ws m r
      end
  end.

(** [s.split()[0]], which raises [IndexError] on a blank string. *)
Definition first_word (s : string) : option string :=
  match lstrip s with
  | EmptyString => None
  | s' => Some (fst (span_word s'))
  end.

(** [s.replace(a, b)] for one-character [a] and [b]. *)
Fixpoint replace_char (a b : ascii) (s : string) : string :=
  match s with
  | String c s' =>
      String (if Ascii.eqb c a then b else c) (replace_char a b s')
  | EmptyString => EmptyString
  end.

(** [s.rindex(c)] for a one-character [c]; [None] is [ValueError]. *)
Fixpoint rindex (c : ascii) (s : string) : option nat :=
  match s with
  | String d s' =>
      match rindex c s' with
      | Some i => Some (S i)
      | None => if Ascii.eqb d c then Some O else None
      end
  | EmptyString => None
  end.

(** [c in s] for a one-character [c]. *)
Fixpoint contains (c : ascii) (s : string) : bool :=
  match s with
  | String d s' => Ascii.eqb d c || contains c s'
  | EmptyString => false
  end.

Definition is_digit (c : ascii) : bool :=
  let n := nat_of_ascii c in (48 <=? n)%nat && (n <=? 57)%nat.

Definition digit_val (c : ascii) : Z := Z.of_nat (nat_of_ascii c) - 48.

(** Decimal digits with single underscores between them, as [int] and
    [float] accept; [acc] is the value read so far, [prev] tells
    whether the previous character was a digit. *)
Fixpoint digits_acc (acc : Z) (prev : bool) (s : string) : option Z :=
  match s with
  | EmptyString => if prev then Some acc else None
  | String c s' =>
      if is_digit c then digits_acc (10 * acc + digit_val c) true s'
      else if Ascii.eqb c "_" then
             if prev then digits_acc acc false s' else None
           else None
  end.

Definition split_sign (s : string) : bool * string :=
  match s with
  | String "-" s' => (true, s')
  | String "+" s' => (false, s')
  | _ => (false, s)
  end.

(** [int(s)] in base ten; [None] is [ValueError]. *)
Definition py_int (s : string) : option Z :=
  let '(neg, body) := split_sign (strip s) in
  match digits_acc 0 false body with
  | Some n => Some (if neg then - n else n)
  | None => None
  end.

(** [str(n)] for an integer. *)
Definition str_of_Z (z : Z) : string :=
  NilZero.string_of_int (Z.to_int z).

(** *** Floating point

    [float(s)] on a plain decimal literal (sign, digits, at most one
    point), correctly rounded to binary64.  Python's [float] also reads
    exponents, [inf], [nan] and surrounding blanks inside a token; strace
    prints none of them, and the model answers [None] ([ValueError])
    there. *)

Definition prec : Z := 53.
Definition emax : Z := 1024.

Fixpoint count_digits (s : string) : nat :=
  match s with
  | String c s' => (if is_digit c then 1 else 0) + count_digits s'
  | EmptyString => O
  end.

Definition digits_or_empty (s : string) : option Z :=
  match s with
  | EmptyString => Some 0
  | _ => digits_acc 0 false s
  end.

(** The literal as a signed integer [n] and a scale [k]: [n / 10^k]. *)
Definition decimal_literal (s : string) : option (bool * Z * nat) :=
  let '(neg, body) := split_sign (strip s) in
  match split1 "." body with
  | None =>
      match digits_acc 0 false body with
      | Some n => Some (neg, n, O)
      | None => None
      end
  | Some (ip, fp) =>
      match ip, fp with
      | EmptyString, EmptyString => None
      | _, _ =>
          match digits_or_empty ip, digits_or_empty fp with
          | Some i, Some f =>
              let k := count_digits fp in
              Some (neg, i * 10 ^ Z.of_nat k + f, k)
          | _, _ => None
          end
      end
  end.

Definition float_of_Z (z : Z) : spec_float :=
  binary_normalize prec emax z 0 false.

Definition py_float (s : string) : option spec_float :=
  match decimal_literal s with
  | Some (neg, n, k) =>
      match n with
      | Zpos p =>
          Some (SFdiv prec emax (S754_finite neg p 0)
                  (float_of_Z (10 ^ Z.of_nat k)))
      | _ => Some (S754_zero neg)
      end
  | None => None
  end.

(** [int(f)]: truncation toward zero; [None] for [inf] and [nan]. *)
Definition float_trunc (f : spec_float) : option Z :=
  match f with
  | S754_zero _ => Some 0
  | S754_finite s m e =>
      let a := match e with
               | Zneg d => Z.shiftr (Zpos m) (Zpos d)
               | _ => Z.shiftl (Zpos m) e
               end in
      Some (if s then - a else a)
  | _ => None
  end.

(** The fractional part that C's [modf] returns (exact). *)
Definition float_frac (f : spec_float) : spec_float :=
  match f with
  | S754_finite s m (Zneg d) =>
      match Z.land (Zpos m) (Z.ones (Zpos d)) with
      | Zpos r => binary_round prec emax s r (Zneg d)
      | _ => S754_zero s
      end
  | S754_finite s _ _ => S754_zero s
  | _ => f
  end.

(** Rounding to the nearest integer, ties to even. *)
Definition float_round_half_even (f : spec_float) : option Z :=
  match f with
  | S754_zero _ => Some 0
  | S754_finite s m (Zneg d) =>
      let q := Z.shiftr (Zpos m) (Zpos d) in
      let r := Z.land (Zpos m) (Z.ones (Zpos d)) in
      let half := Z.shiftl 1 (Zpos d - 1) in
      let a := match Z.compare r half with
               | Lt => q
               | Gt => q + 1
               | Eq => if Z.even q then q else q + 1
               end in
      Some (if s then - a else a)
  | S754_finite s m e => Some (if s then - Z.shiftl (Zpos m) e
                               else Z.shiftl (Zpos m) e)
  | _ => None
  end.

(** A number of seconds as whole microseconds, the way both
    [timedelta(seconds=f)] and [datetime.utcfromtimestamp(f)] obtain
    them: the integral part is exact, the fractional part is multiplied
    by [1e6] in binary64 and rounded half to even. *)
Definition seconds_to_us (f : spec_float) : option Z :=
  match float_trunc f,
        float_round_half_even
          (SFmul prec emax (float_frac f) (float_of_Z 1000000)) with
  | Some i, Some u => Some (i * 1000000 + u)
  | _, _ => None
  end.

(** [timedelta(seconds=float(s))] and
    [datetime.utcfromtimestamp(float(s))], in microseconds. *)
Definition float_us (s : string) : option Z :=
  match py_float s with
  | Some f => seconds_to_us f
  | None => None
  end.

(** [int(td.total_seconds() * 1000000)] for a [timedelta] of [us]
    microseconds: a correctly rounded division by [10**6], a binary64
    product and a truncation. *)
Definition total_us (us : Z) : Z :=
  let secs := match us with
              | Z0 => S754_zero false
              | Zpos p =>
                  SFdiv prec emax (S754_finite false p 0) (float_of_Z 1000000)
              | Zneg p =>
                  SFdiv prec emax (S754_finite true p 0) (float_of_Z 1000000)
              end in
  match float_trunc (SFmul prec emax secs (float_of_Z 1000000)) with
  | Some n => n
  | None => 0
  end.

End PyStr.

Import PyStr.

(** ** Values and records *)

(** A value that is a Python [int] or a [str]: the return code of a call,
    and therefore also a key of [Collapser.pmap]. *)
Inductive pyval :=
  | PInt (z : Z)
  | PStr (s : string).

#[global] Instance pyval_eq_dec : EqDecision pyval.
Proof. solve_decision. Defined.

#[global] Instance pyval_countable : Countable pyval.
Proof.
  refine (inj_countable'
    (λ v, match v with PInt z => inl z | PStr s => inr s end)
    (λ x, match x with inl z => PInt z | inr s => PStr s end) _).
  by intros [].
Defined.

(** [Call = namedtuple("Call", "pid ts func args retcode status elapsed")] *)
Module Call.
Record t := mk {
  pid : Z;
  ts : Z;
  func : string;
  args : option string;
  retcode : pyval;
  status : option string;
  elapsed : option Z;
}.
End Call.

(** ** StraceParser *)

Module StraceParser.

(** The five values [parse_call] returns:
    [func, args, retcode, status, elapsed]. *)
Definition parsed : Type :=
  string * option string * pyval * option string * option Z.

(** The duration token: the two assertions on its brackets, then
    [timedelta(seconds=float(elapsed[1:-1]))]. *)
Definition parse_elapsed (elapsed : string) : result Z :=
  if negb (startswith elapsed "<") then Raise AssertionError
  else if negb (endswith elapsed ">") then Raise AssertionError
  else or_raise ValueError (float_us (drop_end 1 (drop 1 elapsed))).

Definition parse_call (call : string) : result parsed :=
  if startswith call "+++ exited with " then
    w ← or_raise IndexError
          (first_word (drop (String.length "+++ exited with ") call));
    retcode ← or_raise ValueError (py_int w);
    Ret ("atexit", None, PInt retcode, None, None)
  else if startswith call "--- " then
    let rest := drop (String.length "--- ") call in
    '(signal, rest) ← or_raise ValueError (split1 " " rest);
    if negb (endswith rest " ---") then Raise AssertionError
    else Ret ("interrupt", Some signal, PStr (drop_end 4 rest), None, None)
  else
    '(call, rest) ← or_raise ValueError (rsplit1 " = " call);
    let '(rest0, rest1) :=
      match split1 " " rest with
      | Some (a, b) => (a, Some b)
      | None => (rest, None)
      end in
    let retcode :=
      match py_int rest0 with
      | Some n => PInt n
      | None => PStr rest0
      end in
    '(status, elapsed) ←
      match rest1 with
      | Some rest1 =>
          let '(status, elapsed) :=
            match rsplit1 " " rest1 with
            | Some (a, b) => (Some a, b)
            | None => (None, rest1)
            end in
          e ← parse_elapsed elapsed;
          Ret (status, e)
      | None => Ret (None, 0)
      end;
    let func := split_head "(" call in
    let args := rsplit_head ")" (drop (String.length func + 1) call) in
    Ret (func, Some args, retcode, status, Some elapsed).

Definition make_call (pid ts : Z) (p : parsed) : Call.t :=
  let '(func, args, retcode, status, elapsed) := p in
  Call.mk pid ts func args retcode status elapsed.

(** The branch of [parse_line] for a resumed half, entered once the
    prefix [to_parse] has been popped from [pending]. *)
Definition parse_resumed (pid ts : Z) (to_parse s2 : string)
  : result (option Call.t) :=
  let rest := drop (String.length "<... ") s2 in
  '(expect_func, rest) ← or_raise ValueError (split1 " " rest);
  if negb (startswith rest "resumed>") then Raise AssertionError
  else
    let rest := lstrip (drop (String.length "resumed>") rest) in
    p ← parse_call (to_parse +:+ rest);
    if negb (String.eqb (fst (fst (fst (fst p)))) expect_func)
    then Raise AssertionError
    else Ret (Some (make_call pid ts p)).

(** [parse_line] with [self.pending] passed in and out: the second
    component is [pending] when the function returns or raises. *)
Definition parse_line (pending : gmap Z string) (line : string)
  : result (option Call.t) * gmap Z string :=
  let s := split_ws 2 line in
  match or_raise IndexError (s !! 0%nat) ≫= λ s0,
        or_raise ValueError (py_int s0) with
  | Ret pid =>
      match or_raise IndexError (s !! 1%nat) ≫= λ s1,
            or_raise ValueError (float_us s1) with
      | Ret ts =>
          match s !! 2%nat with
          | None => (Raise IndexError, pending)
          | Some s2 =>
              if endswith s2 " <unfinished ...>" then
                match pending !! pid with
                | Some _ => (Raise AssertionError, pending)
                | None =>
                    (Ret None,
                     <[pid := drop_end (String.length " <unfinished ...>") s2]>
                       pending)
                end
              else if startswith s2 "<... " then
                match pending !! pid with
                | None => (Raise KeyError, pending)
                | Some to_parse =>
                    (parse_resumed pid ts to_parse s2, delete pid pending)
                end
              else
                (p ← parse_call s2; Ret (Some (make_call pid ts p)), pending)
          end
      | Raise e => (Raise e, pending)
      | Undefined => (Undefined, pending)
      end
  | Raise e => (Raise e, pending)
  | Undefined => (Undefined, pending)
  end.

(** The generator [parse]: the calls yielded before the input ends or an
    exception leaves [parse_line], that outcome, and [pending]. *)
Fixpoint parse (pending : gmap Z string) (f : list string)
  : list Call.t * result unit * gmap Z string :=
  match f with
  | [] => ([], Ret (), pending)
  | line :: f' =>
      match parse_line pending (strip line) with
      | (Ret r, pending') =>
          let '(cs, out, pending'') := parse pending' f' in
          (match r with Some c => c :: cs | None => cs end, out, pending'')
      | (Raise e, pending') => ([], Raise e, pending')
      | (Undefined, pending') => ([], Undefined, pending')
      end
  end.

End StraceParser.

(** ** SyscallCounter *)

Module SyscallCounter.

Record t := mk { calls : Z; elapsed : Z }.

(** [__init__] *)
Definition init : t := mk 0 0.

(** [__add__], which updates [self] in place (and returns [None], so
    that [counter += x] rebinds only the local name).  [other] is
    [call.elapsed]; adding [None] to a [timedelta] raises [TypeError]
    after [calls] has been incremented. *)
Definition add (self : t) (other : option Z) : result unit * t :=
  let self := mk (calls self + 1) (elapsed self) in
  match other with
  | Some d => (Ret (), mk (calls self) (elapsed self + d))
  | None => (Raise TypeError, self)
  end.

End SyscallCounter.

(** A [defaultdict(SyscallCounter)]: keys in insertion order. *)
Definition sysdict : Type := list (string * SyscallCounter.t).

Fixpoint dict_get (k : string) (d : sysdict) : option SyscallCounter.t :=
  match d with
  | [] => None
  | (k', v) :: d' => if String.eqb k' k then Some v else dict_get k d'
  end.

(** [d[k] = v]: an existing key keeps its position, a new one goes last. *)
Fixpoint dict_set (k : string) (v : SyscallCounter.t) (d : sysdict) : sysdict :=
  match d with
  | [] => [(k, v)]
  | (k', v') :: d' =>
      if String.eqb k' k then (k, v) :: d' else (k', v') :: dict_set k v d'
  end.

(** [d[k]] on the [defaultdict]: a missing key is created first. *)
Definition dict_default (k : string) (d : sysdict) : SyscallCounter.t :=
  match dict_get k d with
  | Some v => v
  | None => SyscallCounter.init
  end.

(** ** Process *)

Module Process.

(** The attributes of a [Process] instance.  [parent] and [syscalls]
    are references: a location in the store of processes and one in the
    store of dictionaries.  [retcode] is the attribute that
    [handle_call] adds on exit. *)
Record t := mk {
  args : option string;
  pid : pyval;
  parent : option nat;
  begin : Z;
  end_ : option Z;
  child_samples : Z;
  syscalls : nat;
  retcode : option pyval;
}.

Definition set_args (a : option string) (p : t) : t :=
  mk a (pid p) (parent p) (begin p) (end_ p) (child_samples p)
     (syscalls p) (retcode p).
Definition set_begin (b : Z) (p : t) : t :=
  mk (args p) (pid p) (parent p) b (end_ p) (child_samples p)
     (syscalls p) (retcode p).
Definition set_end (e : option Z) (p : t) : t :=
  mk (args p) (pid p) (parent p) (begin p) e (child_samples p)
     (syscalls p) (retcode p).
Definition set_child_samples (c : Z) (p : t) : t :=
  mk (args p) (pid p) (parent p) (begin p) (end_ p) c
     (syscalls p) (retcode p).
Definition set_syscalls (d : nat) (p : t) : t :=
  mk (args p) (pid p) (parent p) (begin p) (end_ p) (child_samples p)
     d (retcode p).
Definition set_retcode (r : option pyval) (p : t) : t :=
  mk (args p) (pid p) (parent p) (begin p) (end_ p) (child_samples p)
     (syscalls p) r.

End Process.

(** ** The state: the two object stores and the Collapser's attributes *)

Record state := mkState {
  procs : list Process.t;      (* every Process object ever created *)
  dicts : list sysdict;        (* every syscalls dictionary ever created *)
  pmap : gmap pyval nat;       (* Collapser.pmap: pid to Process *)
  finished : list nat;         (* Collapser.finished *)
}.

Definition set_procs (h : list Process.t) (st : state) : state :=
  mkState h (dicts st) (pmap st) (finished st).
Definition set_dicts (d : list sysdict) (st : state) : state :=
  mkState (procs st) d (pmap st) (finished st).
Definition set_pmap (m : gmap pyval nat) (st : state) : state :=
  mkState (procs st) (dicts st) m (finished st).
Definition set_finished (f : list nat) (st : state) : state :=
  mkState (procs st) (dicts st) (pmap st) f.

(** [Collapser.__init__] *)
Definition init_state : state := mkState [] [] ∅ [].

(** [Process.__init__]: the new object's location and the new state.  A
    child takes its parent's dictionary (the same object); a process
    without parent gets a new one. *)
Definition Process_init (st : state) (pid : pyval) (parent : option nat)
    (begin : Z) : result (nat * state) :=
  '(d, st) ←
    match parent with
    | Some q =>
        match procs st !! q with
        | Some pp => Ret (Process.syscalls pp, st)
        | None => Undefined
        end
    | None => Ret (length (dicts st), set_dicts (dicts st ++ [[]]) st)
    end;
  let p := Process.mk None pid parent begin None 0 d None in
  Ret (length (procs st), set_procs (procs st ++ [p]) st).

(** [Process.execve] on the object at [self]: the location of [oldproc]
    (a shallow copy, which keeps the old dictionary) and the new state. *)
Definition Process_execve (st : state) (self : nat) (args : option string)
    (ts : Z) : result (nat * state) :=
  match procs st !! self with
  | None => Undefined
  | Some p =>
      let oldproc := Process.set_end (Some ts) p in
      let p' :=
        Process.set_syscalls (length (dicts st))
          (Process.set_child_samples 0
             (Process.set_args args
                (Process.set_end None (Process.set_begin ts p)))) in
      Ret (length (procs st),
           set_dicts (dicts st ++ [[]])
             (set_procs (<[self := p']> (procs st) ++ [oldproc]) st))
  end.

(** The property [Process.elapsed]; [now] is what [datetime.now()]
    returns. *)
Definition sumcalls (d : sysdict) : Z :=
  foldr (λ kv acc, SyscallCounter.elapsed kv.2 + acc) 0 d.

Definition Process_elapsed (now : Z) (st : state) (p : Process.t) : result Z :=
  let end_ := match Process.end_ p with Some e => e | None => now end in
  match dicts st !! Process.syscalls p with
  | Some d => Ret ((end_ - Process.begin p) - Process.child_samples p - sumcalls d)
  | None => Undefined
  end.

(** ** Collapser *)

Module Collapser.

Definition SYSCALLS : list string :=
  [ "open"; "openat"; "link"; "unlink"; "unlinkat"; "getcwd"; "chdir";
    "mkdir"; "access"; "faccessat"; "lstat"; "stat"; "newfstatat";
    "statfs"; "readlink"; "mount"; "read"; "write"; "connect"; "socket";
    "bind"; "setsockopt"; "getsockopt"; "getsockname"; "getpeername";
    "sendmmsg"; "recvmsg"; "recvfrom"; "sendto" ].

Definition tracked (func : string) : bool :=
  existsb (String.eqb func) SYSCALLS.

(** [process]: [self.pmap.get(pid)] *)
Definition process (st : state) (pid : Z) : option nat :=
  pmap st !! PInt pid.

(** The loop of [record_finished]: [selftime] is added to
    [child_samples] of [current] and of every process reached through
    [parent].  [fuel] bounds the number of iterations. *)
Fixpoint credit (fuel : nat) (h : list Process.t) (current : option nat)
    (selftime : Z) : option (list Process.t) :=
  match current with
  | None => Some h
  | Some l =>
      match fuel, h !! l with
      | S fuel', Some p =>
          credit fuel'
            (<[l := Process.set_child_samples
                      (Process.child_samples p + selftime) p]> h)
            (Process.parent p) selftime
      | _, _ => None
      end
  end.

Definition record_finished (now : Z) (st : state) (proc : nat)
  : result state :=
  match procs st !! proc with
  | None => Undefined
  | Some p =>
      match Process.args p with
      | None => Ret st
      | Some _ =>
          selftime ← Process_elapsed now st p;
          match credit (length (procs st)) (procs st) (Process.parent p)
                  selftime with
          | Some h => Ret (set_finished (finished st ++ [proc]) (set_procs h st))
          | None => Undefined
          end
      end
  end.

(** [handle_call]: the outcome and the state it leaves. *)
Definition handle_call (now : Z) (st : state) (call : Call.t)
  : result unit * state :=
  if String.eqb (Call.func call) "clone" then
    match Process_init st (Call.retcode call) (process st (Call.pid call))
            (Call.ts call) with
    | Ret (l, st) =>
        (Ret (), set_pmap (<[Call.retcode call := l]> (pmap st)) st)
    | Raise e => (Raise e, st)
    | Undefined => (Undefined, st)
    end
  else if String.eqb (Call.func call) "execve" then
    if negb (bool_decide (Call.retcode call = PInt 0)) then (Ret (), st)
    else
      match process st (Call.pid call) with
      | None =>
          match Process_init st (PInt (Call.pid call)) None (Call.ts call) with
          | Ret (l, st) =>
              (Ret (),
               set_procs (alter (Process.set_args (Call.args call)) l (procs st))
                 (set_pmap (<[PInt (Call.pid call) := l]> (pmap st)) st))
          | Raise e => (Raise e, st)
          | Undefined => (Undefined, st)
          end
      | Some proc =>
          match '(oldproc, st1) ←
                  Process_execve st proc (Call.args call) (Call.ts call);
                record_finished now st1 oldproc with
          | Ret st2 => (Ret (), st2)
          | Raise e => (Raise e, st)
          | Undefined => (Undefined, st)
          end
      end
  else if String.eqb (Call.func call) "atexit" then
    match pmap st !! PInt (Call.pid call) with
    | None => (Raise KeyError, st)
    | Some proc =>
        let st1 := set_pmap (delete (PInt (Call.pid call)) (pmap st)) st in
        let st2 :=
          set_procs
            (alter (λ p, Process.set_end (Some (Call.ts call))
                           (Process.set_retcode (Some (Call.retcode call)) p))
               proc (procs st1)) st1 in
        match record_finished now st2 proc with
        | Ret st3 => (Ret (), st3)
        | Raise e => (Raise e, st2)
        | Undefined => (Undefined, st2)
        end
    end
  else if tracked (Call.func call) then
    match
      (if String.eqb (Call.func call) "read" then
         match Call.args call with
         | Some a => Ret (String.eqb (slice 1 7 a) "<pipe:")
         | None => Raise TypeError
         end
       else Ret false) with
    | Ret true => (Ret (), st)
    | Ret false =>
        match process st (Call.pid call) with
        | None => (Ret (), st)
        | Some parent =>
            match procs st !! parent with
            | None => (Undefined, st)
            | Some p =>
                match dicts st !! Process.syscalls p with
                | None => (Undefined, st)
                | Some d =>
                    let '(out, counter) :=
                      SyscallCounter.add (dict_default (Call.func call) d)
                        (Call.elapsed call) in
                    (out,
                     set_dicts
                       (<[Process.syscalls p :=
                            dict_set (Call.func call) counter d]> (dicts st))
                       st)
                end
            end
        end
    | Raise e => (Raise e, st)
    | Undefined => (Undefined, st)
    end
  else (Ret (), st).

(** The loop of [main._collapse_stacks]: the calls in order, until one
    raises. *)
Fixpoint handle_calls (now : Z) (st : state) (calls : list Call.t)
  : result unit * state :=
  match calls with
  | [] => (Ret (), st)
  | c :: calls' =>
      match handle_call now st c with
      | (Ret _, st') => handle_calls now st' calls'
      | out => out
      end
  end.

End Collapser.

(** ** The literals that [Process.__str__] evaluates

    [__str__] passes pieces of the [execve] arguments to Python's [eval].
    The model evaluates the expressions strace prints there: one string
    literal, or a bracketed list of string literals.  [None] stands for
    an exception of [eval]; an expression outside this fragment (a number,
    a name, concatenated literals) is also answered with [None]. *)

Module PyEval.

Inductive value :=
  | VStr (s : string)
  | VList (l : list string).

Definition is_octal (c : ascii) : bool :=
  let n := nat_of_ascii c in (48 <=? n)%nat && (n <=? 55)%nat.

Definition hex_val (c : ascii) : option nat :=
  let n := nat_of_ascii c in
  if (48 <=? n)%nat && (n <=? 57)%nat then Some (n - 48)%nat
  else if (97 <=? n)%nat && (n <=? 102)%nat then Some (n - 87)%nat
  else if (65 <=? n)%nat && (n <=? 70)%nat then Some (n - 55)%nat
  else None.

Definition octal_val (c : ascii) : nat := (nat_of_ascii c - 48)%nat.

Definition simple_escape (c : ascii) : option ascii :=
  match c with
  | "\"%char => Some "\"%char
  | "'"%char => Some "'"%char
  | "n"%char => Some (ascii_of_nat 10)
  | "t"%char => Some (ascii_of_nat 9)
  | "r"%char => Some (ascii_of_nat 13)
  | "a"%char => Some (ascii_of_nat 7)
  | "b"%char => Some (ascii_of_nat 8)
  | "f"%char => Some (ascii_of_nat 12)
  | "v"%char => Some (ascii_of_nat 11)
  | _ => if Ascii.eqb c (ascii_of_nat 34) then Some c else None
  end.

(** The body of a string literal opened by the quote [q]: its value and
    the text after the closing quote.  [fuel] is at least the length of
    the text. *)
Fixpoint lit_body (fuel : nat) (q : ascii) (s : string)
  : option (string * string) :=
  match fuel with
  | O => None
  | S fuel' =>
      match s with
      | EmptyString => None
      | String c s1 =>
          if Ascii.eqb c q then Some (EmptyString, s1)
          else if Ascii.eqb c (ascii_of_nat 10) then None
          else if Ascii.eqb c "\" then
            match s1 with
            | EmptyString => None
            | String e s2 =>
                let cons ch rest :=
                  match lit_body fuel' q rest with
                  | Some (v, r) => Some (String ch v, r)
                  | None => None
                  end in
                match simple_escape e with
                | Some ch => cons ch s2
                | None =>
                    if is_octal e then
                      let '(n, rest) :=
                        match s2 with
                        | String o2 s3 =>
                            if is_octal o2 then
                              match s3 with
                              | String o3 s4 =>
                                  if is_octal o3
                                  then ((octal_val e * 64 + octal_val o2 * 8
                                         + octal_val o3)%nat, s4)
                                  else ((octal_val e * 8 + octal_val o2)%nat, s3)
                              | EmptyString =>
                                  ((octal_val e * 8 + octal_val o2)%nat, s3)
                              end
                            else (octal_val e, s2)
                        | EmptyString => (octal_val e, s2)
                        end in
                      if (n <? 256)%nat then cons (ascii_of_nat n) rest else None
                    else if Ascii.eqb e "x" then
                      match s2 with
                      | String h1 (String h2 s4) =>
                          match hex_val h1, hex_val h2 with
                          | Some a, Some b => cons (ascii_of_nat (a * 16 + b)) s4
                          | _, _ => None
                          end
                      | _ => None
                      end
                    else None
                end
            end
          else
            match lit_body fuel' q s1 with
            | Some (v, r) => Some (String c v, r)
            | None => None
            end
      end
  end.

(** A string literal at the head of [s]. *)
Definition literal (s : string) : option (string * string) :=
  match s with
  | String q s' =>
      if Ascii.eqb q (ascii_of_nat 34) || Ascii.eqb q "'"
      then lit_body (String.length s) q s'
      else None
  | EmptyString => None
  end.

(** The items of a list after its opening bracket. *)
Fixpoint items (fuel : nat) (s : string) : option (list string * string) :=
  match fuel with
  | O => None
  | S fuel' =>
      match lstrip s with
      | String "]" r => Some ([], r)
      | s' =>
          match literal s' with
          | None => None
          | Some (v, r) =>
              match lstrip r with
              | String "]" r' => Some ([v], r')
              | String "," r' =>
                  match items fuel' r' with
                  | Some (vs, r'') => Some (v :: vs, r'')
                  | None => None
                  end
              | _ => None
              end
          end
      end
  end.

Definition eval (s : string) : option value :=
  match lstrip s with
  | String "[" r =>
      match items (S (String.length r)) r with
      | Some (vs, rest) =>
          match lstrip rest with
          | EmptyString => Some (VList vs)
          | _ => None
          end
      | None => None
      end
  | s' =>
      match literal s' with
      | Some (v, rest) =>
          match lstrip rest with
          | EmptyString => Some (VStr v)
          | _ => None
          end
      | None => None
      end
  end.

Definition hex_digit (n : nat) : ascii :=
  if (n <? 10)%nat then ascii_of_nat (48 + n) else ascii_of_nat (87 + n).

(** [repr] of a [str] of ASCII characters. *)
Fixpoint repr_body (q : ascii) (s : string) : string :=
  match s with
  | EmptyString => EmptyString
  | String c s' =>
      let n := nat_of_ascii c in
      (if Ascii.eqb c q || Ascii.eqb c "\" then String "\" (String c EmptyString)
       else if (n =? 10)%nat then "\n"
       else if (n =? 13)%nat then "\r"
       else if (n =? 9)%nat then "\t"
       else if (n <? 32)%nat || (126 <? n)%nat
            then String "\" (String "x" (String (hex_digit (n / 16))
                   (String (hex_digit (n mod 16)) EmptyString)))
       else String c EmptyString) +:+ repr_body q s'
  end.

Definition repr_str (s : string) : string :=
  let q := if contains "'" s && negb (contains (ascii_of_nat 34) s)
           then ascii_of_nat 34 else "'"%char in
  String q (repr_body q s +:+ String q EmptyString).

Fixpoint join (sep : string) (l : list string) : string :=
  match l with
  | [] => EmptyString
  | [x] => x
  | x :: l' => x +:+ sep +:+ join sep l'
  end.

(** [str(v)], which is what an f-string substitutes. *)
Definition str (v : value) : string :=
  match v with
  | VStr s => s
  | VList l => "[" +:+ join ", " (map repr_str l) +:+ "]"
  end.

End PyEval.

Definition str_of_pyval (v : pyval) : string :=
  match v with
  | PInt z => str_of_Z z
  | PStr s => s
  end.

(** [Process.__str__] for the object at [l]; [fuel] bounds the recursion
    through [parent]. *)
Fixpoint Process_str (fuel : nat) (h : list Process.t) (l : nat)
  : result string :=
  match fuel, h !! l with
  | S fuel', Some self =>
      s ← match Process.parent self with
          | Some q => Process_str fuel' h q
          | None => Ret EmptyString
          end;
      match Process.args self with
      | Some args =>
          '(arg0, argv) ← or_raise ValueError (split1 "," args);
          arg0 ← or_raise SyntaxError (PyEval.eval arg0);
          let argv := lstrip argv in
          argv ←
            (if startswith argv "[" then
               i ← or_raise ValueError (rindex "]" argv);
               let argv := take (i + 1) argv in
               let argv :=
                 if String.eqb (take_end 4 argv) "...]"
                 then drop_end 4 argv +:+ ", " +:+ dquote +:+ "..." +:+ dquote +:+ "]"
                 else argv in
               match PyEval.eval argv with
               | Some v => Ret v
               | None => Ret (PyEval.VStr (take 32 argv))
               end
             else Ret (PyEval.VStr argv));
          let me :=
            replace_char ";" "z"
              (PyEval.str arg0 +:+ "(" +:+ str_of_pyval (Process.pid self)
               +:+ ") " +:+ PyEval.str argv) in
          match s with
          | EmptyString => Ret me
          | _ => Ret (s +:+ ";" +:+ me)
          end
      | None => Ret s
      end
  | _, _ => Undefined
  end.

(** [Collapser.render]: the lines printed, in order. *)
Definition render_proc (now : Z) (st : state) (l : nat) : result (list string) :=
  match procs st !! l with
  | None => Undefined
  | Some proc =>
      e ← Process_elapsed now st proc;
      let us := Z.max 1 (total_us e) in
      name ← Process_str (length (procs st)) (procs st) l;
      match dicts st !! Process.syscalls proc with
      | None => Undefined
      | Some d =>
          Ret ((name +:+ " " +:+ str_of_Z us)
               :: map (λ kv : string * SyscallCounter.t,
                         name +:+ ";" +:+ kv.1 +:+ "("
                         +:+ str_of_Z (SyscallCounter.calls kv.2) +:+ " calls) "
                         +:+ str_of_Z (total_us (SyscallCounter.elapsed kv.2)))
                    d)
      end
  end.

Fixpoint render_list (now : Z) (st : state) (fin : list nat)
  : result (list string) :=
  match fin with
  | [] => Ret []
  | l :: fin' =>
      rows ← render_proc now st l;
      rest ← render_list now st fin';
      Ret (rows ++ rest)
  end.

Definition render (now : Z) (st : state) : result (list string) :=
  render_list now st (finished st).

(** * Properties *)

Import StraceParser Collapser.

(** ** Concrete inputs of the scenarios *)

Module Scenario.

(** [100 1000.0 execve("/bin/ls", ["ls"], 0x0) = 0 <0.001>] *)
Definition a1_exec : string :=
  "100 1000.0 execve(" +:+ dquote +:+ "/bin/ls" +:+ dquote +:+ ", ["
  +:+ dquote +:+ "ls" +:+ dquote +:+ "], 0x0) = 0 <0.001>".

Definition a1_exit : string := "100 1000.5 +++ exited with 0 +++".

Definition a2_unfinished : string := "100 1.0 read(3, <unfinished ...>".

(** [100 1.2 <... read resumed> "x", 1) = 1 <0.2>] *)
Definition a2_resumed : string :=
  "100 1.2 <... read resumed> " +:+ dquote +:+ "x" +:+ dquote
  +:+ ", 1) = 1 <0.2>".

(** The same resumed half under another name. *)
Definition a2_mismatch : string :=
  "100 1.2 <... write resumed> " +:+ dquote +:+ "x" +:+ dquote
  +:+ ", 1) = 1 <0.2>".

(** Parser and collapser in sequence, then [render]. *)
Definition fold_lines (now : Z) (lines : list string) : result (list string) :=
  let '(calls, _, _) := parse ∅ lines in
  render now (handle_calls now init_state calls).2.

(** Calls built by hand for the collapser. *)
Definition call (pid : Z) (ts : Z) (func : string) (args : string)
    (retcode : Z) (elapsed : Z) : Call.t :=
  Call.mk pid ts func (Some args) (PInt retcode) None (Some elapsed).

Definition exit_call (pid : Z) (ts : Z) : Call.t :=
  Call.mk pid ts "atexit" None (PInt 0) None None.

Definition ls_args : string :=
  dquote +:+ "/bin/ls" +:+ dquote +:+ ", [" +:+ dquote +:+ "ls" +:+ dquote
  +:+ "], 0x0".

Definition sh_args : string :=
  dquote +:+ "/bin/sh" +:+ dquote +:+ ", [" +:+ dquote +:+ "sh" +:+ dquote
  +:+ "], 0x0".

Definition state_after (calls : list Call.t) : state :=
  (handle_calls 0 init_state calls).2.

End Scenario.

(** ** Ancestors, well-formed states, live pids *)

(** The processes that the loop of [record_finished] visits, starting at
    [current] and following [parent]. *)
Fixpoint chain (fuel : nat) (h : list Process.t) (current : option nat)
  : list nat :=
  match current with
  | None => []
  | Some l =>
      match fuel, h !! l with
      | S fuel', Some p => l :: chain fuel' h (Process.parent p)
      | _, _ => []
      end
  end.

(** The ancestors of the process at [l]: its parent, the parent of its
    parent, and so on. *)
Definition ancestors (st : state) (l : nat) : list nat :=
  match procs st !! l with
  | Some p => chain (length (procs st)) (procs st) (Process.parent p)
  | None => []
  end.

(** A parent is an older object than its child. *)
Definition parents_below (h : list Process.t) : Prop :=
  ∀ l p q, h !! l = Some p → Process.parent p = Some q → (q < l)%nat.

(** What every state built by [handle_call] satisfies: references point
    to objects that exist, and parents are older than their children. *)
Record wf (st : state) : Prop := mkWf {
  wf_parent : parents_below (procs st);
  wf_dict : ∀ l p, procs st !! l = Some p →
                   (Process.syscalls p < length (dicts st))%nat;
  wf_pmap : ∀ k l, pmap st !! k = Some l → (l < length (procs st))%nat;
}.

(** [child_samples] of the object at [l]. *)
Definition child_samples_at (st : state) (l : nat) : option Z :=
  Process.child_samples <$> procs st !! l.

(** The location of the dictionary that the object at [l] refers to. *)
Definition syscalls_at (st : state) (l : nat) : option nat :=
  Process.syscalls <$> procs st !! l.

(** The counter of [func] as seen from the object at [l]. *)
Definition counter_at (st : state) (l : nat) (func : string)
  : option SyscallCounter.t :=
  p ← procs st !! l;
  d ← dicts st !! Process.syscalls p;
  Some (dict_default func d).

(** One iteration of the loop of [record_finished] on one object. *)
Definition bump (d : Z) (p : Process.t) : Process.t :=
  Process.set_child_samples (Process.child_samples p + d) p.

(** Two stores of processes with the same references at every location. *)
Definition same_links (h h' : list Process.t) : Prop :=
  ∀ i, (λ p, (Process.parent p, Process.syscalls p)) <$> h' !! i
       = (λ p, (Process.parent p, Process.syscalls p)) <$> h !! i.

(** The state that [Process.execve] leaves when called on the object [p]
    at [self]: the shallow copy is the new last object, the object at
    [self] starts a new epoch with a new, empty dictionary. *)
Definition execve_state (st : state) (self : nat) (p : Process.t)
    (args : option string) (ts : Z) : state :=
  set_dicts (dicts st ++ [[]])
    (set_procs
       (<[self := Process.set_syscalls (length (dicts st))
                    (Process.set_child_samples 0
                       (Process.set_args args
                          (Process.set_end None (Process.set_begin ts p))))]>
          (procs st) ++ [Process.set_end (Some ts) p]) st).

(** The state of the [atexit] branch before [record_finished]: the pid is
    popped, [retcode] and [end] are set on the object at [proc]. *)
Definition atexit_state (st : state) (proc : nat) (call : Call.t) : state :=
  set_procs
    (alter (λ p, Process.set_end (Some (Call.ts call))
                   (Process.set_retcode (Some (Call.retcode call)) p))
       proc (procs st))
    (set_pmap (delete (PInt (Call.pid call)) (pmap st)) st).

(** The test of the [read] branch: [call.args[1:7] == "<pipe:"]. *)
Definition pipe_read (call : Call.t) : bool :=
  String.eqb (Call.func call) "read"
  && match Call.args call with
     | Some a => String.eqb (slice 1 7 a) "<pipe:"
     | None => false
     end.

(** The attributes of a process that the loop of [record_finished] never
    writes. *)
Definition links3 (p : Process.t) : option string * option nat * nat :=
  (Process.args p, Process.parent p, Process.syscalls p).

(** ** Live pids of a stream of calls *)






(** ** Streams of calls used as examples *)

Module Trace.

(** Scenario A6: pid 200 executes, then clones the thread 201. *)
Definition thread : list Call.t :=
  [ Scenario.call 200 0 "execve" Scenario.sh_args 0 1000;
    Scenario.call 200 1000000 "clone" "child_stack=NULL" 201 50 ].

(** Pid 100 executes, clones 201, and executes again before 201 does. *)
Definition parent_reexec : list Call.t :=
  [ Scenario.call 100 0 "execve" Scenario.sh_args 0 1000;
    Scenario.call 100 1000000 "clone" "child_stack=NULL" 201 50;
    Scenario.call 100 2000000 "execve" Scenario.ls_args 0 1000 ].

(** Scenario A3, followed by a second [execve] of the parent: pid 100
    executes at 0 s, clones 200 at 1 s; 200 executes at 2 s and exits at
    3 s; 100 executes again at 4 s. *)
Definition child_then_reexec : list Call.t :=
  [ Scenario.call 100 0 "execve" Scenario.sh_args 0 1000;
    Scenario.call 100 1000000 "clone" "child_stack=NULL" 200 50;
    Scenario.call 200 2000000 "execve" Scenario.ls_args 0 1000;
    Scenario.exit_call 200 3000000;
    Scenario.call 100 4000000 "execve" Scenario.ls_args 0 1000 ].


Definition open_call (pid : Z) : Call.t :=
  Scenario.call pid 3000000 "open" "path, O_RDONLY" 3 7.

End Trace.

(** ** Further definitions for the parser and the driver *)

(** [any(c.isspace() for c in s)] *)
Fixpoint has_space (s : string) : bool :=
  match s with
  | String c s' => is_space c || has_space s'
  | EmptyString => false
  end.

(** The loop of [main._collapse_stacks]: the generator [parse] is consumed
    call by call, so that a line is read only after the call of the line
    before has been handled.  The result is the outcome of the loop and
    the state of the collapser when it ends. *)
Fixpoint collapse_loop (now : Z) (pending : gmap Z string) (st : state)
    (f : list string) : result unit * state :=
  match f with
  | [] => (Ret (), st)
  | line :: f' =>
      match parse_line pending (strip line) with
      | (Ret None, pending') => collapse_loop now pending' st f'
      | (Ret (Some call), pending') =>
          match handle_call now st call with
          | (Ret _, st') => collapse_loop now pending' st' f'
          | out => out
          end
      | (Raise e, _) => (Raise e, st)
      | (Undefined, _) => (Undefined, st)
      end
  end.

(** [main._collapse_stacks]: the rows written to the folded file.  The
    file is opened only after the loop has ended without exception. *)
Definition collapse_stacks (now : Z) (f : list string) : result (list string) :=
  match collapse_loop now ∅ init_state f with
  | (Ret _, st) => render now st
  | (Raise e, _) => Raise e
  | (Undefined, _) => Undefined
  end.

(** The attributes that identify a process: they are set by [__init__]
    and copied by [copy.copy]. *)
Definition identity (p : Process.t) : pyval * option nat :=
  (Process.pid p, Process.parent p).


(** ** Small facts about the dispatch of [handle_call] *)

Lemma handle_call_atexit now st call :
  Call.func call = "atexit" →
  handle_call now st call =
    match pmap st !! PInt (Call.pid call) with
    | None => (Raise KeyError, st)
    | Some proc =>
        let st1 := set_pmap (delete (PInt (Call.pid call)) (pmap st)) st in
        let st2 :=
          set_procs
            (alter (λ p, Process.set_end (Some (Call.ts call))
                           (Process.set_retcode (Some (Call.retcode call)) p))
               proc (procs st1)) st1 in
        match record_finished now st2 proc with
        | Ret st3 => (Ret (), st3)
        | Raise e => (Raise e, st2)
        | Undefined => (Undefined, st2)
        end
    end.
Proof. intros Hf. unfold handle_call. rewrite Hf. reflexivity. Qed.

Lemma handle_call_atexit_unknown now st call :
  Call.func call = "atexit" →
  pmap st !! PInt (Call.pid call) = None →
  handle_call now st call = (Raise KeyError, st).
Proof.
  intros Hf Hk. rewrite handle_call_atexit by done. by rewrite Hk.
Qed.

(** C10. An [atexit] call whose pid is not a key of [pmap] raises
    [KeyError] (the [pop] of the absent key) and leaves the whole state, so
    [pmap] and [finished] in particular, as it was. *)
Theorem atexit_unknown_pid_raises now st call :
  Call.func call = "atexit" →
  pmap st !! PInt (Call.pid call) = None →
  handle_call now st call = (Raise KeyError, st).
Proof. apply handle_call_atexit_unknown. Qed.

Lemma atexit_unknown_pid_raises_witness :
  handle_call 0 init_state (Scenario.exit_call 100 5) = (Raise KeyError, init_state).
Proof.
  apply (atexit_unknown_pid_raises 0 init_state (Scenario.exit_call 100 5));
    reflexivity.
Defined.

(** ** Scenarios *)

(** C1, as the code behaves.  The two lines of scenario A1 give exactly one
    folded row.  Its frame carries the first [execve] argument as strace
    printed it, decoded but not shortened to a base name: the row is
    [/bin/ls(100) ['ls'] 500000]. *)
Theorem scenario_a1_row now :
  Scenario.fold_lines now [Scenario.a1_exec; Scenario.a1_exit]
  = Ret ["/bin/ls(100) ['ls'] 500000"].
Proof. vm_compute. reflexivity. Qed.

(** C1, as stated: the row is not [ls(100) ['ls'] 500000]. *)
Lemma scenario_a1_row_is_not_basename :
  Scenario.fold_lines 0 [Scenario.a1_exec; Scenario.a1_exit]
  ≠ Ret ["ls(100) ['ls'] 500000"].
Proof. vm_compute. discriminate. Qed.

(** C6. Scenario A2: the unfinished half stores its prefix under pid 100
    and yields no call; the resumed half then yields one call with
    [func = "read"], [retcode = 1] and an elapsed time of 0.2 s, and leaves
    nothing pending.  The resumed name is compared with the function name
    of the reassembled call: under the name [write] the same half fails the
    assertion. *)
Theorem scenario_a2_unfinished_resumed :
  let read_call :=
    Call.mk 100 1200000 "read"
      (Some ("3," +:+ dquote +:+ "x" +:+ dquote +:+ ", 1"))
      (PInt 1) None (Some 200000) in
  parse_line ∅ Scenario.a2_unfinished = (Ret None, {[ 100 := "read(3," ]})
  ∧ parse_line {[ 100 := "read(3," ]} Scenario.a2_resumed
    = (Ret (Some read_call), ∅)
  ∧ parse ∅ [Scenario.a2_unfinished; Scenario.a2_resumed]
    = ([read_call], Ret (), ∅)
  ∧ parse_line {[ 100 := "read(3," ]} Scenario.a2_mismatch
    = (Raise AssertionError, ∅).
Proof. vm_compute. repeat split. Qed.

(** ** Pipe reads *)

(** C2, as the code behaves.  A [read] is skipped when the six characters
    of its argument text at positions 1 to 6 (counting from 0, so after one
    leading character, the digit of the descriptor) are [<pipe:]; the call
    then changes nothing at all. *)
Theorem pipe_read_changes_nothing now st call a :
  Call.func call = "read" →
  Call.args call = Some a →
  slice 1 7 a = "<pipe:" →
  handle_call now st call = (Ret (), st).
Proof.
  intros Hf Ha Hs. unfold handle_call. rewrite Hf, Ha, Hs. reflexivity.
Qed.

Lemma pipe_read_changes_nothing_witness :
  let st := Scenario.state_after [Scenario.call 100 0 "execve" Scenario.ls_args 0 1000] in
  handle_call 0 st (Scenario.call 100 10 "read" "3<pipe:[42]>, buf, 16" 16 5)
  = (Ret (), st).
Proof.
  intros st.
  apply (pipe_read_changes_nothing 0 st
           (Scenario.call 100 10 "read" "3<pipe:[42]>, buf, 16" 16 5)
           "3<pipe:[42]>, buf, 16"); reflexivity.
Defined.

(** C2, as stated: an argument text that begins with [<pipe:] is counted.
    After the root's [execve], such a [read] creates the [read] counter of
    pid 100 with one call and its 5 microseconds. *)
Lemma pipe_prefix_read_is_counted :
  let st := Scenario.state_after [Scenario.call 100 0 "execve" Scenario.ls_args 0 1000] in
  let c := Scenario.call 100 10 "read" "<pipe:[42]>, buf, 16" 16 5 in
  Call.func c = "read"
  ∧ (∃ a, Call.args c = Some a ∧ startswith a "<pipe:" = true)
  ∧ dicts st = [[]]
  ∧ dicts (handle_call 0 st c).2 = [[("read", SyscallCounter.mk 1 5)]].
Proof.
  repeat split.
  eexists. split; reflexivity.
Qed.


(** ** Splitting at spaces *)

Section SplitLemmas.

Implicit Types s t : string.

Lemma length_append s t :
  String.length (s +:+ t) = (String.length s + String.length t)%nat.
Proof. induction s as [|c s IH]; simpl; [done | by rewrite IH]. Qed.

Lemma drop_append_length s t : drop (String.length s) (s +:+ t) = t.
Proof. induction s as [|c s IH]; simpl; [by destruct t | done]. Qed.

Lemma take_append_length s t : take (String.length s) (s +:+ t) = s.
Proof.
  induction s as [|c s IH]; simpl; [by destruct t | by rewrite IH].
Qed.

Lemma prefix_space c s :
  String.prefix " " (String c s) = bool_decide (c = " "%char).
Proof.
  change (String.prefix " " (String c s))
    with (if ascii_dec " " c then String.prefix "" s else false).
  destruct (ascii_dec " " c) as [<-|Hne].
  - by destruct s.
  - rewrite bool_decide_eq_false_2; [done | congruence].
Qed.

Lemma contains_cons_false c d s :
  contains c (String d s) = false → d ≠ c ∧ contains c s = false.
Proof.
  simpl. intros [Hd Hs]%orb_false_iff. split; [|done].
  by apply Ascii.eqb_neq.
Qed.


Lemma split1_space_append s t :
  contains " " s = false → split1 " " (s +:+ " " +:+ t) = Some (s, t).
Proof.
  induction s as [|c s IH].
  - intros _. by destruct t.
  - intros [Hc Hs]%contains_cons_false.
    change (String c s +:+ " " +:+ t) with (String c (s +:+ " " +:+ t)).
    cbn [split1]. rewrite prefix_space, bool_decide_eq_false_2 by done.
    by rewrite IH.
Qed.







End SplitLemmas.



(** ** The text after the return value *)





(** ** Errors of the parser *)

Lemma startswith_append p s : startswith (p +:+ s) p = true.
Proof.
  unfold startswith. induction p as [|c p IH]; simpl.
  - by destruct s.
  - by destruct (ascii_dec c c).
Qed.





(** ** The loop of [record_finished] *)

Section Credit.

Implicit Types h : list Process.t.

Lemma chain_ext fuel h1 h2 cur :
  (∀ i, Process.parent <$> h1 !! i = Process.parent <$> h2 !! i) →
  chain fuel h1 cur = chain fuel h2 cur.
Proof.
  intros Hext. revert cur. induction fuel as [|f IH]; intros [l|]; try done.
  cbn. specialize (Hext l).
  destruct (h1 !! l) as [p1|], (h2 !! l) as [p2|]; simplify_eq/=; try done.
  rewrite Hext. f_equal. apply IH.
Qed.

Lemma chain_None fuel h : chain fuel h None = [].
Proof. by destruct fuel. Qed.

Lemma chain_le fuel h l x :
  parents_below h → x ∈ chain fuel h (Some l) → (x ≤ l)%nat.
Proof.
  intros Hpb. revert l. induction fuel as [|f IH]; intros l; cbn.
  - intros []%elem_of_nil.
  - destruct (h !! l) as [p|] eqn:Hl; [|intros []%elem_of_nil].
    intros [->|Hx]%elem_of_cons; [lia|].
    destruct (Process.parent p) as [q|] eqn:Hq;
      [|by rewrite chain_None in Hx; apply elem_of_nil in Hx].
    specialize (Hpb l p q Hl Hq). specialize (IH q Hx). lia.
Qed.

Lemma chain_parent_fresh fuel h l p :
  parents_below h → h !! l = Some p → l ∉ chain fuel h (Process.parent p).
Proof.
  intros Hpb Hl Hin.
  destruct (Process.parent p) as [q|] eqn:Hq;
    [|by rewrite chain_None in Hin; apply elem_of_nil in Hin].
  pose proof (chain_le _ _ _ _ Hpb Hin). specialize (Hpb l p q Hl Hq). lia.
Qed.

Lemma chain_NoDup fuel h cur : parents_below h → NoDup (chain fuel h cur).
Proof.
  intros Hpb. revert cur. induction fuel as [|f IH]; intros [l|]; cbn;
    try apply NoDup_nil_2.
  destruct (h !! l) as [p|] eqn:Hl; [|apply NoDup_nil_2].
  apply NoDup_cons_2; [by apply chain_parent_fresh | apply IH].
Qed.

Lemma parents_below_insert_bump h l p d :
  parents_below h → h !! l = Some p → parents_below (<[l := bump d p]> h).
Proof.
  intros Hpb Hl i pi q Hi Hq.
  destruct (decide (l = i)) as [->|Hne].
  - rewrite list_lookup_insert_eq in Hi by eauto using lookup_lt_Some.
    simplify_eq. by apply (Hpb i p).
  - rewrite list_lookup_insert_ne in Hi by done. by apply (Hpb i pi).
Qed.

(** What the loop computes: every visited process gets [d] added to its
    [child_samples], once, and nothing else changes. *)
Lemma credit_lookup fuel h cur d h' :
  parents_below h →
  credit fuel h cur d = Some h' →
  ∀ i, h' !! i =
       (λ p, if bool_decide (i ∈ chain fuel h cur) then bump d p else p)
         <$> h !! i.
Proof.
  revert h cur. induction fuel as [|f IH]; intros h [l|] Hpb Hc i;
    cbn in Hc; simplify_eq;
    try (rewrite chain_None, bool_decide_eq_false_2 by apply not_elem_of_nil;
         by destruct (h' !! i)).
  destruct (h !! l) as [p|] eqn:Hl; [|done].
  fold (bump d p) in Hc.
  rewrite (IH _ _ (parents_below_insert_bump h l p d Hpb Hl) Hc i).
  rewrite (chain_ext f (<[l := bump d p]> h) h).
  2:{ intros j. destruct (decide (l = j)) as [->|Hne].
      - rewrite list_lookup_insert_eq by eauto using lookup_lt_Some.
        by rewrite Hl.
      - by rewrite list_lookup_insert_ne. }
  cbn [chain]. rewrite Hl.
  pose proof (chain_parent_fresh f h l p Hpb Hl) as Hfresh.
  destruct (decide (l = i)) as [->|Hne].
  - rewrite list_lookup_insert_eq by eauto using lookup_lt_Some.
    rewrite Hl. cbn.
    rewrite bool_decide_eq_false_2 by done.
    by rewrite bool_decide_eq_true_2 by apply list_elem_of_here.
  - rewrite list_lookup_insert_ne by done.
    destruct (h !! i) as [pi|]; [cbn|done].
    f_equal. rewrite (bool_decide_ext (i ∈ l :: chain f h (Process.parent p))
                        (i ∈ chain f h (Process.parent p))); [done|].
    rewrite elem_of_cons. split; [by intros [->|?] | by right].
Qed.

Lemma credit_total fuel h cur d :
  parents_below h →
  (∀ l, cur = Some l → (l < fuel)%nat ∧ (l < length h)%nat) →
  is_Some (credit fuel h cur d).
Proof.
  revert h cur. induction fuel as [|f IH]; intros h [l|] Hpb Hb; cbn; eauto.
  - pose proof (Hb l eq_refl) as [? ?]. lia.
  - pose proof (Hb l eq_refl) as [Hlf Hlh].
    destruct (lookup_lt_is_Some_2 h l Hlh) as [p Hl]. rewrite Hl.
    fold (bump d p). apply IH.
    + by apply parents_below_insert_bump.
    + intros q Hq. specialize (Hpb l p q Hl Hq).
      rewrite length_insert. lia.
Qed.

Lemma credit_length fuel h cur d h' :
  parents_below h → credit fuel h cur d = Some h' → length h' = length h.
Proof.
  intros Hpb Hc. pose proof (credit_lookup _ _ _ _ _ Hpb Hc) as Hl.
  apply Nat.le_antisymm.
  - destruct (decide (length h' ≤ length h)%nat); [done|].
    assert (is_Some (h' !! length h)) as [x Hx]
      by (apply lookup_lt_is_Some_2; lia).
    rewrite Hl, (lookup_ge_None_2 h) in Hx by lia. done.
  - destruct (decide (length h ≤ length h')%nat); [done|].
    assert (is_Some (h !! length h')) as [x Hx]
      by (apply lookup_lt_is_Some_2; lia).
    specialize (Hl (length h')). rewrite Hx, lookup_ge_None_2 in Hl by lia.
    done.
Qed.

End Credit.

(** ** Well-formed states are preserved *)

Section WellFormed.

Implicit Types st : state.
Implicit Types h : list Process.t.

Lemma wf_init : wf init_state.
Proof.
  split.
  - by intros l p q Hl.
  - by intros l p Hl.
  - intros k l Hk. cbn in Hk. by rewrite lookup_empty in Hk.
Qed.

Lemma same_links_length h h' : same_links h h' → length h' = length h.
Proof.
  intros Hs. apply Nat.le_antisymm.
  - destruct (decide (length h' ≤ length h)%nat); [done|].
    specialize (Hs (length h)).
    destruct (lookup_lt_is_Some_2 h' (length h)) as [x Hx]; [lia|].
    by rewrite Hx, lookup_ge_None_2 in Hs.
  - destruct (decide (length h ≤ length h')%nat); [done|].
    specialize (Hs (length h')).
    destruct (lookup_lt_is_Some_2 h (length h')) as [x Hx]; [lia|].
    by rewrite Hx, lookup_ge_None_2 in Hs.
Qed.

Lemma wf_same_links st h' fin :
  wf st → same_links (procs st) h' →
  wf (set_finished fin (set_procs h' st)).
Proof.
  intros [Hp Hd Hm] Hs. split; cbn.
  - intros l p q Hl Hq. specialize (Hs l). rewrite Hl in Hs.
    destruct (procs st !! l) as [p0|] eqn:Hl0; simplify_eq/=.
    apply (Hp l p0); [done | congruence].
  - intros l p Hl. specialize (Hs l). rewrite Hl in Hs.
    destruct (procs st !! l) as [p0|] eqn:Hl0; simplify_eq/=.
    replace (Process.syscalls p) with (Process.syscalls p0) by congruence.
    by apply (Hd l).
  - intros k l Hk. rewrite (same_links_length _ _ Hs). by apply (Hm k).
Qed.

Lemma same_links_alter h l f :
  (∀ p, Process.parent (f p) = Process.parent p) →
  (∀ p, Process.syscalls (f p) = Process.syscalls p) →
  same_links h (alter f l h).
Proof.
  intros Hp Hs i. destruct (decide (l = i)) as [->|Hne].
  - rewrite list_lookup_alter_eq. destruct (h !! i); [cbn|done].
    by rewrite Hp, Hs.
  - by rewrite list_lookup_alter_ne.
Qed.

Lemma same_links_bumps h h' (P : nat → bool) d :
  (∀ i, h' !! i = (λ p, if P i then bump d p else p) <$> h !! i) →
  same_links h h'.
Proof.
  intros Hl i. rewrite Hl. destruct (h !! i); [cbn|done]. by destruct (P i).
Qed.

(** [record_finished] on a process without [args], and on one with. *)
Lemma record_finished_thread now st l p :
  procs st !! l = Some p → Process.args p = None →
  record_finished now st l = Ret st.
Proof. intros Hl Ha. unfold record_finished. by rewrite Hl, Ha. Qed.

Lemma record_finished_process now st l p a :
  wf st → procs st !! l = Some p → Process.args p = Some a →
  ∃ t h',
    Process_elapsed now st p = Ret t
    ∧ record_finished now st l
      = Ret (set_finished (finished st ++ [l]) (set_procs h' st))
    ∧ ∀ i, h' !! i =
           (λ pi, if bool_decide (i ∈ ancestors st l) then bump t pi else pi)
             <$> procs st !! i.
Proof.
  intros [Hp Hd Hm] Hl Ha.
  destruct (lookup_lt_is_Some_2 (dicts st) (Process.syscalls p)) as [d Hdl];
    [by apply (Hd l)|].
  set (t := (match Process.end_ p with Some e => e | None => now end
             - Process.begin p) - Process.child_samples p - sumcalls d).
  assert (Process_elapsed now st p = Ret t) as Ht
    by (unfold Process_elapsed; by rewrite Hdl).
  destruct (credit_total (length (procs st)) (procs st) (Process.parent p) t Hp)
    as [h' Hc].
  { intros q Hq. specialize (Hp l p q Hl Hq).
    apply lookup_lt_Some in Hl. lia. }
  exists t, h'. split; [done|]. split.
  - unfold record_finished. rewrite Hl, Ha, Ht. cbn. by rewrite Hc.
  - intros i. unfold ancestors. rewrite Hl.
    by apply credit_lookup.
Qed.

Lemma wf_record_finished now st l st' :
  wf st → record_finished now st l = Ret st' → wf st'.
Proof.
  intros Hwf Hr. unfold record_finished in Hr.
  destruct (procs st !! l) as [p|] eqn:Hl; [|done].
  destruct (Process.args p) as [a|] eqn:Ha; [|by simplify_eq].
  destruct (record_finished_process now st l p a Hwf Hl Ha)
    as (t & h' & Ht & Hr' & Hlk).
  unfold record_finished in Hr'. rewrite Hl, Ha in Hr'.
  rewrite Hr' in Hr. simplify_eq.
  apply wf_same_links; [done|].
  by apply (same_links_bumps _ _ (λ i, bool_decide (i ∈ ancestors st l)) t).
Qed.

Lemma record_finished_defined now st l :
  wf st → (l < length (procs st))%nat → ∃ st', record_finished now st l = Ret st'.
Proof.
  intros Hwf Hl. destruct (lookup_lt_is_Some_2 _ _ Hl) as [p Hp].
  destruct (Process.args p) as [a|] eqn:Ha.
  - destruct (record_finished_process now st l p a Hwf Hp Ha)
      as (t & h' & _ & Hr & _). eauto.
  - exists st. by eapply record_finished_thread.
Qed.

End WellFormed.

(** ** The branches of [handle_call] *)

Section Branches.

Implicit Types st : state.
Implicit Types c : Call.t.

Lemma handle_call_clone now st c :
  Call.func c = "clone" → wf st →
  handle_call now st c =
    (Ret (),
     match process st (Call.pid c) with
     | Some q =>
         mkState
           (procs st ++ [Process.mk None (Call.retcode c) (Some q) (Call.ts c)
                           None 0 (default 0%nat (syscalls_at st q)) None])
           (dicts st)
           (<[Call.retcode c := length (procs st)]> (pmap st))
           (finished st)
     | None =>
         mkState
           (procs st ++ [Process.mk None (Call.retcode c) None (Call.ts c)
                           None 0 (length (dicts st)) None])
           (dicts st ++ [[]])
           (<[Call.retcode c := length (procs st)]> (pmap st))
           (finished st)
     end).
Proof.
  intros Hf Hwf. unfold handle_call. rewrite Hf. cbn [String.eqb Ascii.eqb Bool.eqb].
  unfold Process_init.
  destruct (process st (Call.pid c)) as [q|] eqn:Hq; [|done].
  destruct (lookup_lt_is_Some_2 (procs st) q) as [pq Hpq];
    [by apply (wf_pmap st Hwf (PInt (Call.pid c)))|].
  unfold syscalls_at. by rewrite Hpq.
Qed.

Lemma handle_call_execve_failed now st c :
  Call.func c = "execve" → Call.retcode c ≠ PInt 0 →
  handle_call now st c = (Ret (), st).
Proof.
  intros Hf Hr. unfold handle_call. rewrite Hf. cbn [String.eqb Ascii.eqb Bool.eqb].
  by rewrite bool_decide_eq_false_2.
Qed.

Lemma alter_app_last {A} (f : A → A) (l : list A) (x : A) :
  alter f (length l) (l ++ [x]) = l ++ [f x].
Proof. induction l as [|y l IH]; [done|]. cbn. by rewrite <-IH. Qed.

Lemma handle_call_execve_root now st c :
  Call.func c = "execve" → Call.retcode c = PInt 0 →
  process st (Call.pid c) = None →
  handle_call now st c =
    (Ret (),
     mkState
       (procs st ++ [Process.mk (Call.args c) (PInt (Call.pid c)) None
                       (Call.ts c) None 0 (length (dicts st)) None])
       (dicts st ++ [[]])
       (<[PInt (Call.pid c) := length (procs st)]> (pmap st))
       (finished st)).
Proof.
  intros Hf Hr Hp. unfold handle_call.
  rewrite Hf. cbn [String.eqb Ascii.eqb Bool.eqb].
  rewrite bool_decide_eq_true_2, Hp by done. cbn.
  by rewrite alter_app_last.
Qed.

Lemma handle_call_execve_known now st c l p :
  Call.func c = "execve" → Call.retcode c = PInt 0 →
  process st (Call.pid c) = Some l → procs st !! l = Some p →
  handle_call now st c =
    match record_finished now (execve_state st l p (Call.args c) (Call.ts c))
            (length (procs st)) with
    | Ret st2 => (Ret (), st2)
    | Raise e => (Raise e, st)
    | Undefined => (Undefined, st)
    end.
Proof.
  intros Hf Hr Hp Hl. unfold handle_call.
  rewrite Hf. cbn [String.eqb Ascii.eqb Bool.eqb].
  rewrite bool_decide_eq_true_2, Hp by done. cbn [negb].
  unfold Process_execve. rewrite Hl. reflexivity.
Qed.

Lemma handle_call_atexit_known now st c l :
  Call.func c = "atexit" → pmap st !! PInt (Call.pid c) = Some l →
  handle_call now st c =
    match record_finished now (atexit_state st l c) l with
    | Ret st3 => (Ret (), st3)
    | Raise e => (Raise e, atexit_state st l c)
    | Undefined => (Undefined, atexit_state st l c)
    end.
Proof. intros Hf Hl. rewrite handle_call_atexit by done. by rewrite Hl. Qed.

Lemma tracked_not_dispatched f :
  tracked f = true →
  String.eqb f "clone" = false ∧ String.eqb f "execve" = false
  ∧ String.eqb f "atexit" = false.
Proof.
  intros Ht. repeat split.
  - destruct (String.eqb_spec f "clone") as [->|]; [by vm_compute in Ht | done].
  - destruct (String.eqb_spec f "execve") as [->|]; [by vm_compute in Ht | done].
  - destruct (String.eqb_spec f "atexit") as [->|]; [by vm_compute in Ht | done].
Qed.

Lemma handle_call_tracked now st c :
  tracked (Call.func c) = true →
  handle_call now st c =
    match
      (if String.eqb (Call.func c) "read" then
         match Call.args c with
         | Some a => Ret (String.eqb (slice 1 7 a) "<pipe:")
         | None => Raise TypeError
         end
       else Ret false) with
    | Ret true => (Ret (), st)
    | Ret false =>
        match process st (Call.pid c) with
        | None => (Ret (), st)
        | Some parent =>
            match procs st !! parent with
            | None => (Undefined, st)
            | Some p =>
                match dicts st !! Process.syscalls p with
                | None => (Undefined, st)
                | Some d =>
                    let '(out, counter) :=
                      SyscallCounter.add (dict_default (Call.func c) d)
                        (Call.elapsed c) in
                    (out,
                     set_dicts
                       (<[Process.syscalls p :=
                            dict_set (Call.func c) counter d]> (dicts st))
                       st)
                end
            end
        end
    | Raise e => (Raise e, st)
    | Undefined => (Undefined, st)
    end.
Proof.
  intros Ht. destruct (tracked_not_dispatched _ Ht) as (H1 & H2 & H3).
  unfold handle_call. by rewrite H1, H2, H3, Ht.
Qed.

(** A tracked call that is not a pipe read, for a pid whose process is
    known: the counter of [func] in the dictionary of that process gets
    one call more and the elapsed time of the call. *)
Lemma handle_call_counted now st c l p d e :
  tracked (Call.func c) = true →
  pipe_read c = false →
  (Call.func c = "read" → is_Some (Call.args c)) →
  Call.elapsed c = Some e →
  process st (Call.pid c) = Some l → procs st !! l = Some p →
  dicts st !! Process.syscalls p = Some d →
  handle_call now st c =
    (Ret (),
     set_dicts
       (<[Process.syscalls p :=
            dict_set (Call.func c)
              (SyscallCounter.mk
                 (SyscallCounter.calls (dict_default (Call.func c) d) + 1)
                 (SyscallCounter.elapsed (dict_default (Call.func c) d) + e))
              d]> (dicts st))
       st).
Proof.
  intros Ht Hp Ha He Hl Hpl Hd. rewrite handle_call_tracked by done.
  unfold pipe_read in Hp. revert Hp.
  destruct (String.eqb_spec (Call.func c) "read") as [Hr|Hr]; intros Hp.
  - destruct (Ha Hr) as [a Hargs]. rewrite Hargs in Hp |- *.
    cbn [andb] in Hp. rewrite Hp, Hl, Hpl, Hd. unfold SyscallCounter.add.
    by rewrite He.
  - rewrite Hl, Hpl, Hd. unfold SyscallCounter.add. by rewrite He.
Qed.

Lemma handle_call_ignored now st c :
  Call.func c ≠ "clone" → Call.func c ≠ "execve" → Call.func c ≠ "atexit" →
  tracked (Call.func c) = false →
  handle_call now st c = (Ret (), st).
Proof.
  intros H1%String.eqb_neq H2%String.eqb_neq H3%String.eqb_neq Ht.
  unfold handle_call. by rewrite H1, H2, H3, Ht.
Qed.

End Branches.

Section Preservation.

Implicit Types st : state.
Implicit Types c : Call.t.

(** A new last object whose references exist keeps the state well formed. *)
Lemma wf_push st p ds m fin :
  wf st →
  (∀ q, Process.parent p = Some q → (q < length (procs st))%nat) →
  (Process.syscalls p < length ds)%nat →
  (length (dicts st) ≤ length ds)%nat →
  (∀ k l, m !! k = Some l → (l ≤ length (procs st))%nat) →
  wf (mkState (procs st ++ [p]) ds m fin).
Proof.
  intros [Hp Hd Hm] Hpar Hsys Hds Hmap. split; cbn.
  - intros l pl q [[Hlt Hl]|[-> <-]]%lookup_snoc_Some Hq.
    + by apply (Hp l pl).
    + by apply Hpar.
  - intros l pl [[Hlt Hl]|[-> <-]]%lookup_snoc_Some; [|done].
    specialize (Hd l pl Hl). lia.
  - intros k l Hk. rewrite length_app. cbn. specialize (Hmap k l Hk). lia.
Qed.

Lemma wf_insert_proc st l p p' ds :
  wf st → procs st !! l = Some p →
  Process.parent p' = Process.parent p →
  (Process.syscalls p' < length ds)%nat →
  (length (dicts st) ≤ length ds)%nat →
  wf (mkState (<[l := p']> (procs st)) ds (pmap st) (finished st)).
Proof.
  intros [Hp Hd Hm] Hl Hpar Hsys Hds. split; cbn.
  - intros i pi q Hi Hq. destruct (decide (l = i)) as [->|Hne].
    + rewrite list_lookup_insert_eq in Hi by eauto using lookup_lt_Some.
      simplify_eq. apply (Hp i p); [done | congruence].
    + rewrite list_lookup_insert_ne in Hi by done. by apply (Hp i pi).
  - intros i pi Hi. destruct (decide (l = i)) as [->|Hne].
    + rewrite list_lookup_insert_eq in Hi by eauto using lookup_lt_Some.
      by simplify_eq.
    + rewrite list_lookup_insert_ne in Hi by done.
      specialize (Hd i pi Hi). lia.
  - intros k i Hk. rewrite length_insert. by apply (Hm k).
Qed.

Lemma wf_execve_state st l p args ts :
  wf st → procs st !! l = Some p → wf (execve_state st l p args ts).
Proof.
  intros Hwf Hl. unfold execve_state, set_dicts, set_procs. cbn.
  set (p' := Process.set_syscalls _ _).
  assert (wf (mkState (<[l := p']> (procs st)) (dicts st ++ [[]])
                (pmap st) (finished st))) as Hwf1.
  { apply (wf_insert_proc st l p); [done.. | |]; rewrite length_app; cbn; lia. }
  apply (wf_push _ _ _ _ _ Hwf1); cbn.
  - intros q Hq. rewrite length_insert.
    pose proof (wf_parent st Hwf l p q Hl Hq).
    apply lookup_lt_Some in Hl. lia.
  - rewrite length_app. cbn. pose proof (wf_dict st Hwf l p Hl). lia.
  - done.
  - intros k i Hk. rewrite length_insert.
    pose proof (wf_pmap st Hwf k i Hk). lia.
Qed.

Lemma wf_atexit_state st l c : wf st → wf (atexit_state st l c).
Proof.
  intros Hwf. unfold atexit_state.
  change (set_procs ?h ?s) with (set_finished (finished s) (set_procs h s)).
  apply wf_same_links.
  - destruct Hwf as [Hp Hd Hm]. split; cbn; [done..|].
    intros k i [_ Hk]%lookup_delete_Some. by apply (Hm k).
  - by apply same_links_alter.
Qed.

(** [handle_call] keeps the state well formed, whatever its outcome, and
    never reaches the outcome [Undefined] from a well-formed state. *)
Lemma wf_handle_call now st c :
  wf st → wf (handle_call now st c).2.
Proof.
  intros Hwf.
  destruct (decide (Call.func c = "clone")) as [Hclone|Hclone].
  { rewrite handle_call_clone by done. cbn.
    destruct (process st (Call.pid c)) as [q|] eqn:Hq.
    - pose proof (wf_pmap st Hwf _ _ Hq) as Hlt.
      destruct (lookup_lt_is_Some_2 _ _ Hlt) as [pq Hpq].
      apply wf_push; cbn; [done|by intros ? [= <-]| | done |].
      + unfold syscalls_at. rewrite Hpq. cbn. by apply (wf_dict st Hwf q).
      + intros k l [[_ <-]|[_ Hk]]%lookup_insert_Some; [done|].
        pose proof (wf_pmap st Hwf k l Hk). lia.
    - apply wf_push; cbn; [done|done|rewrite length_app; cbn; lia
                          |rewrite length_app; cbn; lia|].
      intros k l [[_ <-]|[_ Hk]]%lookup_insert_Some; [done|].
      pose proof (wf_pmap st Hwf k l Hk). lia. }
  destruct (decide (Call.func c = "execve")) as [Hexec|Hexec].
  { destruct (decide (Call.retcode c = PInt 0)) as [Hr|Hr];
      [|by rewrite handle_call_execve_failed].
    destruct (process st (Call.pid c)) as [l|] eqn:Hl.
    - pose proof (wf_pmap st Hwf _ _ Hl) as Hlt.
      destruct (lookup_lt_is_Some_2 _ _ Hlt) as [p Hp].
      rewrite (handle_call_execve_known now st c l p) by done.
      destruct (record_finished _ _ _) as [st2| |] eqn:Hrf; [cbn|done..].
      eapply wf_record_finished; [|done]. by apply wf_execve_state.
    - rewrite handle_call_execve_root by done. cbn.
      apply wf_push; cbn; [done|done|rewrite length_app; cbn; lia
                          |rewrite length_app; cbn; lia|].
      intros k l [[_ <-]|[_ Hk]]%lookup_insert_Some; [done|].
      pose proof (wf_pmap st Hwf k l Hk). lia. }
  destruct (decide (Call.func c = "atexit")) as [Hexit|Hexit].
  { destruct (pmap st !! PInt (Call.pid c)) as [l|] eqn:Hl;
      [|by rewrite handle_call_atexit_unknown].
    rewrite (handle_call_atexit_known now st c l) by done.
    pose proof (wf_atexit_state st l c Hwf) as Hwf2.
    destruct (record_finished _ _ _) as [st3| |] eqn:Hrf; [cbn|done..].
    by eapply wf_record_finished. }
  destruct (tracked (Call.func c)) eqn:Ht;
    [|by rewrite handle_call_ignored].
  rewrite handle_call_tracked by done.
  destruct (if String.eqb _ _ then _ else _) as [[]| |]; try done.
  destruct (process st (Call.pid c)) as [l|]; [|done].
  destruct (procs st !! l) as [p|] eqn:Hp; [|done].
  destruct (dicts st !! Process.syscalls p) as [d|] eqn:Hd; [|done].
  destruct (SyscallCounter.add _ _) as [out counter]. cbn.
  destruct Hwf as [Hpar Hdict Hm]. split; cbn; [done| |done].
  intros i pi Hi. rewrite length_insert. by apply (Hdict i).
Qed.

Lemma handle_call_defined now st c :
  wf st → (handle_call now st c).1 ≠ Undefined.
Proof.
  intros Hwf.
  destruct (decide (Call.func c = "clone")) as [Hclone|Hclone];
    [by rewrite handle_call_clone|].
  destruct (decide (Call.func c = "execve")) as [Hexec|Hexec].
  { destruct (decide (Call.retcode c = PInt 0)) as [Hr|Hr];
      [|by rewrite handle_call_execve_failed].
    destruct (process st (Call.pid c)) as [l|] eqn:Hl;
      [|by rewrite handle_call_execve_root].
    pose proof (wf_pmap st Hwf _ _ Hl) as Hlt.
    destruct (lookup_lt_is_Some_2 _ _ Hlt) as [p Hp].
    rewrite (handle_call_execve_known now st c l p) by done.
    destruct (record_finished_defined now
                (execve_state st l p (Call.args c) (Call.ts c))
                (length (procs st))) as [st2 ->]; [| |done].
    - by apply wf_execve_state.
    - cbn. rewrite length_app, length_insert. cbn. lia. }
  destruct (decide (Call.func c = "atexit")) as [Hexit|Hexit].
  { destruct (pmap st !! PInt (Call.pid c)) as [l|] eqn:Hl;
      [|by rewrite handle_call_atexit_unknown].
    rewrite (handle_call_atexit_known now st c l) by done.
    destruct (record_finished_defined now (atexit_state st l c) l)
      as [st3 ->]; [| |done].
    - by apply wf_atexit_state.
    - cbn. rewrite length_alter. by apply (wf_pmap st Hwf (PInt (Call.pid c))). }
  destruct (tracked (Call.func c)) eqn:Ht;
    [|by rewrite handle_call_ignored].
  rewrite handle_call_tracked by done.
  destruct (if String.eqb _ _ then _ else _) as [[]| |] eqn:Hpipe; try done.
  - destruct (process st (Call.pid c)) as [l|] eqn:Hl; [|done].
    pose proof (wf_pmap st Hwf _ _ Hl) as Hlt.
    destruct (lookup_lt_is_Some_2 _ _ Hlt) as [p Hp]. rewrite Hp.
    pose proof (wf_dict st Hwf l p Hp) as Hlt'.
    destruct (lookup_lt_is_Some_2 _ _ Hlt') as [d Hd]. rewrite Hd.
    unfold SyscallCounter.add. by destruct (Call.elapsed c).
  - destruct (String.eqb _ _); [by destruct (Call.args c)|done].
Qed.


Lemma wf_handle_calls now st cs :
  wf st → wf (handle_calls now st cs).2.
Proof.
  revert st. induction cs as [|c cs IH]; intros st Hwf; [done|]. cbn.
  pose proof (wf_handle_call now st c Hwf) as Hwf'.
  destruct (handle_call now st c) as [[[]| |] st']; cbn in *; [by apply IH|done..].
Qed.

(** Every state that the program builds from the empty collapser is well
    formed, and no call takes it to the outcome [Undefined]. *)
Lemma wf_handle_call_defined now cs c :
  let st := (handle_calls now init_state cs).2 in
  wf st ∧ (handle_call now st c).1 ≠ Undefined.
Proof.
  intros st. assert (wf st) by apply wf_handle_calls, wf_init.
  split; [done | by apply handle_call_defined].
Qed.

End Preservation.

(** ** Threads: retirement and shared dictionaries *)

Section Sharing.

Implicit Types st : state.
Implicit Types c : Call.t.

Lemma record_finished_frame now st l st' :
  wf st → record_finished now st l = Ret st' →
  pmap st' = pmap st ∧ dicts st' = dicts st
  ∧ ∀ i, links3 <$> procs st' !! i = links3 <$> procs st !! i.
Proof.
  intros Hwf Hr. pose proof Hr as Hr0. unfold record_finished in Hr.
  destruct (procs st !! l) as [p|] eqn:Hl; [|done].
  destruct (Process.args p) as [a|] eqn:Ha; [|by simplify_eq].
  destruct (record_finished_process now st l p a Hwf Hl Ha)
    as (t & h' & Ht & Hr' & Hlk).
  rewrite Hr' in Hr0. simplify_eq. cbn. repeat split.
  intros i. rewrite Hlk. destruct (procs st !! i); [cbn|done].
  by destruct (bool_decide _).
Qed.

(** C9, as the code behaves.  A process without [args] is retired without
    a row: [record_finished] returns at once and leaves the state, so
    [finished], as it is, both when the process exits and when its first
    [execve] supersedes it.  A tracked call (not a pipe read) for its pid
    adds one call and the elapsed time to the counter in the dictionary
    the process refers to; that counter is its parent's whenever the two
    still refer to the same dictionary. *)
Theorem thread_retires_without_row :
  (∀ now st l p,
     procs st !! l = Some p → Process.args p = None →
     record_finished now st l = Ret st)
  ∧ (∀ now st c l p,
       wf st → Call.func c = "atexit" →
       pmap st !! PInt (Call.pid c) = Some l →
       procs st !! l = Some p → Process.args p = None →
       ∃ st', handle_call now st c = (Ret (), st')
              ∧ finished st' = finished st)
  ∧ (∀ now st c l p,
       wf st → Call.func c = "execve" → Call.retcode c = PInt 0 →
       process st (Call.pid c) = Some l →
       procs st !! l = Some p → Process.args p = None →
       ∃ st', handle_call now st c = (Ret (), st')
              ∧ finished st' = finished st)
  ∧ (∀ now st c l p q pq d e,
       tracked (Call.func c) = true → pipe_read c = false →
       (Call.func c = "read" → is_Some (Call.args c)) →
       Call.elapsed c = Some e →
       process st (Call.pid c) = Some l →
       procs st !! l = Some p → Process.args p = None →
       Process.parent p = Some q → procs st !! q = Some pq →
       Process.syscalls p = Process.syscalls pq →
       dicts st !! Process.syscalls pq = Some d →
       ∃ st', handle_call now st c = (Ret (), st')
              ∧ finished st' = finished st
              ∧ counter_at st' q (Call.func c)
                = Some (SyscallCounter.mk
                          (SyscallCounter.calls (dict_default (Call.func c) d) + 1)
                          (SyscallCounter.elapsed (dict_default (Call.func c) d) + e))).
Proof.
  split; [|split; [|split]].
  - intros. by eapply record_finished_thread.
  - intros now st c l p Hwf Hf Hk Hl Ha.
    rewrite (handle_call_atexit_known now st c l) by done.
    rewrite (record_finished_thread now (atexit_state st l c) l
               (Process.set_end (Some (Call.ts c))
                  (Process.set_retcode (Some (Call.retcode c)) p))); eauto.
    cbn. by rewrite list_lookup_alter_eq, Hl.
  - intros now st c l p Hwf Hf Hr Hk Hl Ha.
    rewrite (handle_call_execve_known now st c l p) by done.
    rewrite (record_finished_thread now _ _ (Process.set_end (Some (Call.ts c)) p));
      eauto.
    cbn. rewrite lookup_app_r; rewrite length_insert; [|done].
    by rewrite Nat.sub_diag.
  - intros now st c l p q pq d e Ht Hp Ha He Hk Hl Hargs Hpar Hq Hs Hd.
    rewrite (handle_call_counted now st c l p d e); try done; [|by rewrite Hs].
    eexists. split; [done|]. split; [done|].
    unfold counter_at. cbn. rewrite Hq. cbn. rewrite Hs.
    rewrite list_lookup_insert_eq by eauto using lookup_lt_Some. cbn.
    f_equal. unfold dict_default at 1.
    assert (∀ k v m, dict_get k (dict_set k v m) = Some v) as Hgs.
    { intros k v m. induction m as [|[k' v'] m IH]; cbn.
      - by rewrite String.eqb_refl.
      - destruct (String.eqb_spec k' k) as [->|Hne]; cbn.
        + by rewrite String.eqb_refl.
        + by rewrite (proj2 (String.eqb_neq _ _) Hne). }
    by rewrite Hgs.
Qed.

Lemma thread_retires_without_row_witness :
  let st := Scenario.state_after Trace.thread in
  (∃ st', handle_call 0 st (Scenario.exit_call 201 5000000) = (Ret (), st')
          ∧ finished st' = finished st)
  ∧ (∃ st', handle_call 0 st (Trace.open_call 201) = (Ret (), st')
            ∧ finished st' = finished st
            ∧ counter_at st' 0 "open" = Some (SyscallCounter.mk 1 7)).
Proof.
  intros st.
  destruct thread_retires_without_row as (_ & Hexit & _ & Hcall).
  split.
  - eapply (Hexit 0 st (Scenario.exit_call 201 5000000) 1%nat);
      [apply wf_handle_calls, wf_init | reflexivity..].
  - eapply (Hcall 0 st (Trace.open_call 201) 1%nat _ 0%nat _ [] 7);
      [reflexivity | reflexivity | discriminate | reflexivity..].
Defined.

(** C9, as stated: after the parent 100 has executed again, an [open] of
    the thread 201 (no [args], parent 100) does not reach the counters of
    its parent.  The parent's dictionary stays empty; the call is counted
    in the dictionary of the parent's superseded epoch. *)
Lemma thread_syscall_misses_parent :
  let st := Scenario.state_after Trace.parent_reexec in
  let st' := (handle_call 0 st (Trace.open_call 201)).2 in
  pmap st !! PInt 201 = Some 1%nat
  ∧ (Process.args <$> procs st !! 1%nat) = Some None
  ∧ (Process.parent <$> procs st !! 1%nat) = Some (Some 0%nat)
  ∧ counter_at st 0 "open" = Some SyscallCounter.init
  ∧ counter_at st' 0 "open" = Some SyscallCounter.init
  ∧ counter_at st' 1 "open" = Some (SyscallCounter.mk 1 7)
  ∧ counter_at st' 2 "open" = Some (SyscallCounter.mk 1 7)
  ∧ finished st' = [2%nat].
Proof. vm_compute. repeat split. Qed.

(** C3, as the code behaves.  A live process without [args] that has a
    parent refers to its parent's dictionary from its creation by [clone]
    on, and every [handle_call] keeps it so, except a successful [execve]
    of the parent (or of the process itself): the one who executes moves
    to a new dictionary and the other keeps the old one.  Stated for one
    call: if the process, where it was live before the call, shared its
    parent's dictionary, it shares it after the call, or the call was
    such an [execve]. *)
Theorem sharing_kept_until_execve now st c st' k l p q pq :
  wf st →
  handle_call now st c = (Ret (), st') →
  pmap st' !! k = Some l →
  procs st' !! l = Some p → Process.args p = None →
  Process.parent p = Some q → procs st' !! q = Some pq →
  (∀ p0 pq0,
     pmap st !! k = Some l → procs st !! l = Some p0 →
     Process.args p0 = None → procs st !! q = Some pq0 →
     Process.syscalls p0 = Process.syscalls pq0) →
  Process.syscalls p = Process.syscalls pq
  ∨ (Call.func c = "execve" ∧ Call.retcode c = PInt 0
     ∧ (process st (Call.pid c) = Some q ∨ process st (Call.pid c) = Some l)).
Proof.
  intros Hwf Hstep Hk Hl Ha Hpar Hq Hbefore.
  (* The case in which the three attributes of [l] and [q] are those of
     the state before the call. *)
  assert (∀ st1,
            pmap st !! k = Some l →
            (∀ i, links3 <$> procs st1 !! i = links3 <$> procs st !! i) →
            (∀ i, links3 <$> procs st' !! i = links3 <$> procs st1 !! i) →
            Process.syscalls p = Process.syscalls pq) as Hsame.
  { intros st1 Hk0 H1 H2.
    pose proof (H2 l) as Hl2. pose proof (H2 q) as Hq2.
    rewrite H1, Hl in Hl2. rewrite H1, Hq in Hq2.
    destruct (procs st !! l) as [p0|] eqn:Hl0; [|done].
    destruct (procs st !! q) as [pq0|] eqn:Hq0; [|done].
    cbn in Hl2, Hq2. unfold links3 in Hl2, Hq2. simplify_eq.
    replace (Process.syscalls p) with (Process.syscalls p0) by congruence.
    replace (Process.syscalls pq) with (Process.syscalls pq0) by congruence.
    apply Hbefore; [done..|congruence|done]. }
  destruct (decide (Call.func c = "clone")) as [Hclone|Hclone].
  { rewrite handle_call_clone in Hstep by done. left.
    destruct (process st (Call.pid c)) as [q0|] eqn:Hq0; simplify_eq; cbn in *.
    - apply lookup_insert_Some in Hk as [[<- <-]|[Hne Hk]].
      + rewrite lookup_app_r, Nat.sub_diag in Hl by done. simplify_eq/=.
        pose proof (wf_pmap st Hwf _ _ Hq0) as Hlt.
        rewrite lookup_app_l in Hq by done.
        unfold syscalls_at. by rewrite Hq.
      + pose proof (wf_pmap st Hwf _ _ Hk) as Hlt.
        rewrite lookup_app_l in Hl by done.
        pose proof (wf_parent st Hwf _ _ _ Hl Hpar).
        rewrite lookup_app_l in Hq by lia. by apply Hbefore.
    - apply lookup_insert_Some in Hk as [[<- <-]|[Hne Hk]].
      + rewrite lookup_app_r, Nat.sub_diag in Hl by done. by simplify_eq/=.
      + pose proof (wf_pmap st Hwf _ _ Hk) as Hlt.
        rewrite lookup_app_l in Hl by done.
        pose proof (wf_parent st Hwf _ _ _ Hl Hpar).
        rewrite lookup_app_l in Hq by lia. by apply Hbefore. }
  destruct (decide (Call.func c = "execve")) as [Hexec|Hexec].
  { destruct (decide (Call.retcode c = PInt 0)) as [Hr|Hr].
    2:{ rewrite handle_call_execve_failed in Hstep by done. simplify_eq.
        left. by apply Hbefore. }
    destruct (process st (Call.pid c)) as [l0|] eqn:Hl0.
    - destruct (decide (l0 = q)) as [->|Hnq]; [right; eauto|].
      destruct (decide (l0 = l)) as [->|Hnl]; [right; eauto|].
      left.
      pose proof (wf_pmap st Hwf _ _ Hl0) as Hlt.
      destruct (lookup_lt_is_Some_2 _ _ Hlt) as [p0 Hp0].
      rewrite (handle_call_execve_known now st c l0 p0) in Hstep by done.
      destruct (record_finished _ _ _) as [st2| |] eqn:Hrf; simplify_eq.
      destruct (record_finished_frame _ _ _ _
                  (wf_execve_state st l0 p0 (Call.args c) (Call.ts c) Hwf Hp0) Hrf)
        as (Hm & _ & Hlinks).
      rewrite Hm in Hk. cbn in Hk.
      pose proof (wf_pmap st Hwf _ _ Hk) as Hltl.
      pose proof (Hlinks l) as Hll. pose proof (Hlinks q) as Hlq.
      rewrite Hl in Hll. rewrite Hq in Hlq. cbn in Hll, Hlq.
      rewrite lookup_app_l, list_lookup_insert_ne in Hll
        by (done || rewrite length_insert; lia).
      destruct (procs st !! l) as [pl0|] eqn:Hpl0; [|done].
      assert (q < l)%nat as Hql.
      { apply (wf_parent st Hwf l pl0); [done|].
        cbn in Hll. unfold links3 in Hll. congruence. }
      rewrite lookup_app_l, list_lookup_insert_ne in Hlq
        by (done || rewrite length_insert; lia).
      destruct (procs st !! q) as [pq0|] eqn:Hpq0; [|done].
      cbn in Hll, Hlq. unfold links3 in Hll, Hlq. simplify_eq.
      replace (Process.syscalls p) with (Process.syscalls pl0) by congruence.
      replace (Process.syscalls pq) with (Process.syscalls pq0) by congruence.
      apply Hbefore; [done..|congruence|done].
    - rewrite handle_call_execve_root in Hstep by done. left.
      simplify_eq; cbn in *.
      apply lookup_insert_Some in Hk as [[<- <-]|[Hne Hk]].
      + rewrite lookup_app_r, Nat.sub_diag in Hl by done. by simplify_eq/=.
      + pose proof (wf_pmap st Hwf _ _ Hk) as Hlt.
        rewrite lookup_app_l in Hl by done.
        pose proof (wf_parent st Hwf _ _ _ Hl Hpar).
        rewrite lookup_app_l in Hq by lia. by apply Hbefore. }
  left.
  destruct (decide (Call.func c = "atexit")) as [Hexit|Hexit].
  { destruct (pmap st !! PInt (Call.pid c)) as [l0|] eqn:Hl0;
      [|by rewrite handle_call_atexit_unknown in Hstep].
    rewrite (handle_call_atexit_known now st c l0) in Hstep by done.
    destruct (record_finished _ _ _) as [st3| |] eqn:Hrf; simplify_eq.
    destruct (record_finished_frame _ _ _ _ (wf_atexit_state st l0 c Hwf) Hrf)
      as (Hm & _ & Hlinks).
    rewrite Hm in Hk. cbn in Hk. apply lookup_delete_Some in Hk as [_ Hk].
    apply (Hsame (atexit_state st l0 c)); [done| |done].
    intros i. cbn. destruct (decide (l0 = i)) as [->|Hne].
    - rewrite list_lookup_alter_eq. by destruct (procs st !! i).
    - by rewrite list_lookup_alter_ne. }
  destruct (tracked (Call.func c)) eqn:Ht.
  2:{ rewrite handle_call_ignored in Hstep by done. simplify_eq.
      by apply Hbefore. }
  rewrite handle_call_tracked in Hstep by done.
  assert (procs st' = procs st ∧ pmap st' = pmap st) as [Hprocs Hpmap].
  { destruct (if String.eqb _ _ then _ else _) as [[]| |]; simplify_eq; try done.
    destruct (process st (Call.pid c)) as [l0|]; [|by simplify_eq].
    destruct (procs st !! l0) as [p0|]; [|done].
    destruct (dicts st !! Process.syscalls p0) as [d|]; [|done].
    destruct (SyscallCounter.add _ _). by simplify_eq. }
  rewrite Hprocs in Hl, Hq. rewrite Hpmap in Hk. by apply Hbefore.
Qed.

Lemma sharing_kept_until_execve_witness :
  let st := Scenario.state_after Trace.thread in
  let st' := (handle_call 0 st (Trace.open_call 201)).2 in
  (Process.syscalls <$> procs st' !! 1%nat)
  = (Process.syscalls <$> procs st' !! 0%nat).
Proof.
  intros st st'.
  assert (∃ p pq, procs st' !! 1%nat = Some p ∧ procs st' !! 0%nat = Some pq)
    as (p & pq & Hp & Hpq) by (by eexists _, _).
  rewrite Hp, Hpq. cbn. f_equal.
  destruct (sharing_kept_until_execve 0 st (Trace.open_call 201) st'
              (PInt 201) 1%nat p 0%nat pq) as [H|(H & _)];
    [apply wf_handle_calls, wf_init | reflexivity | reflexivity | done
    | by vm_compute in Hp; simplify_eq | by vm_compute in Hp; simplify_eq
    | done | | done | discriminate].
  intros p0 pq0 _ H0 _ H1. vm_compute in H0, H1. by simplify_eq.
Defined.

(** C3, as stated: after the parent 100 has executed a second time, the
    live process 201, which has no [args] and whose parent is the process
    of 100, refers to another dictionary than its parent. *)
Lemma sharing_broken_by_parent_execve :
  let st := Scenario.state_after Trace.parent_reexec in
  pmap st !! PInt 201 = Some 1%nat
  ∧ pmap st !! PInt 100 = Some 0%nat
  ∧ (Process.args <$> procs st !! 1%nat) = Some None
  ∧ (Process.parent <$> procs st !! 1%nat) = Some (Some 0%nat)
  ∧ syscalls_at st 1 = Some 0%nat
  ∧ syscalls_at st 0 = Some 1%nat.
Proof. vm_compute. repeat split. Qed.

End Sharing.

(** ** Retirement credits the ancestors *)

Section Retirement.

Implicit Types st : state.
Implicit Types c : Call.t.

Lemma chain_lt fuel h l p x :
  parents_below h → h !! l = Some p →
  x ∈ chain fuel h (Process.parent p) → (x < l)%nat.
Proof.
  intros Hpb Hl Hx.
  destruct (Process.parent p) as [q|] eqn:Hq;
    [|by rewrite chain_None in Hx; apply elem_of_nil in Hx].
  pose proof (chain_le _ _ _ _ Hpb Hx). specialize (Hpb l p q Hl Hq). lia.
Qed.

Lemma ancestors_lt st l x : wf st → x ∈ ancestors st l → (x < l)%nat.
Proof.
  intros Hwf. unfold ancestors.
  destruct (procs st !! l) as [p|] eqn:Hl; [|by intros ?%elem_of_nil].
  by apply chain_lt; [apply wf_parent|].
Qed.

(** What [record_finished] does with a process that has [args]. *)
Lemma record_finished_credits now st n pn a st' :
  wf st → procs st !! n = Some pn → Process.args pn = Some a →
  record_finished now st n = Ret st' →
  ∃ t,
    finished st' = finished st ++ [n]
    ∧ procs st' !! n = Some pn
    ∧ Process_elapsed now st' pn = Ret t
    ∧ ancestors st' n = ancestors st n
    ∧ (∀ x, x ∈ ancestors st n →
            child_samples_at st' x = (λ s, s + t) <$> child_samples_at st x)
    ∧ (∀ x, x ∉ ancestors st n → procs st' !! x = procs st !! x).
Proof.
  intros Hwf Hn Ha Hr.
  destruct (record_finished_process now st n pn a Hwf Hn Ha)
    as (t & h' & Ht & Hr' & Hlk).
  rewrite Hr' in Hr. simplify_eq. exists t. cbn.
  assert (n ∉ ancestors st n) as Hfresh
    by (intros Hin%(ancestors_lt _ _ _ Hwf); lia).
  assert (h' !! n = Some pn) as Hn'.
  { rewrite Hlk, Hn. cbn. by rewrite bool_decide_eq_false_2. }
  split; [done|]. split; [done|]. split; [done|]. split; [|split].
  - unfold ancestors. cbn. rewrite Hn', Hn.
    replace (length h') with (length (procs st)).
    2:{ symmetry. apply same_links_length.
        by apply (same_links_bumps _ _ (λ i, bool_decide (i ∈ ancestors st n)) t). }
    apply chain_ext. intros i. rewrite Hlk.
    destruct (procs st !! i); [cbn|done]. by destruct (bool_decide _).
  - intros x Hx. unfold child_samples_at. cbn. rewrite Hlk.
    destruct (procs st !! x); [cbn|done]. by rewrite bool_decide_eq_true_2.
  - intros x Hx. rewrite Hlk.
    destruct (procs st !! x); [cbn|done]. by rewrite bool_decide_eq_false_2.
Qed.

Lemma ancestors_NoDup st l : wf st → NoDup (ancestors st l).
Proof.
  intros Hwf. unfold ancestors. destruct (procs st !! l); [|apply NoDup_nil_2].
  apply chain_NoDup, wf_parent, Hwf.
Qed.

Lemma snoc_ne {A} (l : list A) (x : A) : l ≠ l ++ [x].
Proof.
  intros H%(f_equal length). rewrite length_app in H. cbn in H. lia.
Qed.

(** C4, as the code behaves.  When a call retires a process [n] that has
    [args] (it exits, or its [execve] supersedes the epoch that [n] is the
    copy of), the self-time of [n] is added to [child_samples] of each of
    its ancestors, once per ancestor; the ancestors are pairwise
    distinct, and [child_samples] of no other process changes, except
    that of the process that executes, which is reset. *)
Theorem retirement_credits_ancestors now st c st' n :
  wf st →
  handle_call now st c = (Ret (), st') →
  finished st' = finished st ++ [n] →
  ∃ pn t,
    procs st' !! n = Some pn ∧ is_Some (Process.args pn)
    ∧ Process_elapsed now st' pn = Ret t
    ∧ NoDup (ancestors st' n)
    ∧ (∀ x, x ∈ ancestors st' n →
            ∃ s, child_samples_at st x = Some s
                 ∧ child_samples_at st' x = Some (s + t))
    ∧ (∀ x s, x ∉ ancestors st' n →
              child_samples_at st x = Some s →
              child_samples_at st' x
              = Some (if bool_decide (Call.func c = "execve"
                                      ∧ process st (Call.pid c) = Some x)
                      then 0 else s)).
Proof.
  intros Hwf Hstep Hfin.
  destruct (decide (Call.func c = "clone")) as [Hclone|Hclone].
  { rewrite handle_call_clone in Hstep by done.
    destruct (process st (Call.pid c)); simplify_eq; by apply snoc_ne in Hfin. }
  destruct (decide (Call.func c = "execve")) as [Hexec|Hexec].
  { destruct (decide (Call.retcode c = PInt 0)) as [Hr|Hr].
    2:{ rewrite handle_call_execve_failed in Hstep by done. simplify_eq.
        by apply snoc_ne in Hfin. }
    destruct (process st (Call.pid c)) as [l|] eqn:Hl.
    2:{ rewrite handle_call_execve_root in Hstep by done. simplify_eq.
        by apply snoc_ne in Hfin. }
    pose proof (wf_pmap st Hwf _ _ Hl) as Hlt.
    destruct (lookup_lt_is_Some_2 _ _ Hlt) as [p Hp].
    rewrite (handle_call_execve_known now st c l p) in Hstep by done.
    pose proof (wf_execve_state st l p (Call.args c) (Call.ts c) Hwf Hp) as Hwf1.
    set (st1 := execve_state st l p (Call.args c) (Call.ts c)) in *.
    destruct (record_finished now st1 (length (procs st))) as [st2| |] eqn:Hrf;
      simplify_eq.
    assert (procs st1 !! length (procs st)
            = Some (Process.set_end (Some (Call.ts c)) p)) as Hold.
    { cbn. rewrite lookup_app_r; rewrite length_insert; [|done].
      by rewrite Nat.sub_diag. }
    assert (∀ x, x ≠ l → (x < length (procs st))%nat →
                 procs st1 !! x = procs st !! x) as Hother.
    { intros x Hx Hxlt. cbn.
      rewrite lookup_app_l by (by rewrite length_insert).
      by rewrite list_lookup_insert_ne. }
    assert (∃ p', procs st1 !! l = Some p'
                  ∧ Process.parent p' = Process.parent p
                  ∧ Process.child_samples p' = 0) as (p' & Hl1 & Hpar' & Hcs').
    { eexists. split; [cbn; rewrite lookup_app_l by (by rewrite length_insert);
             by rewrite list_lookup_insert_eq|done]. }
    destruct (Process.args p) as [a|] eqn:Ha.
    2:{ rewrite (record_finished_thread now st1 _ _ Hold) in Hrf by done.
        simplify_eq. by apply snoc_ne in Hfin. }
    destruct (record_finished_credits now st1 _ _ a _ Hwf1 Hold Ha Hrf)
      as (t & Hf & Hn & Ht & Hanc & Hin & Hout).
    rewrite Hf in Hfin. cbn in Hfin. apply app_inj_tail in Hfin as [_ <-].
    exists (Process.set_end (Some (Call.ts c)) p), t.
    split; [done|]. split; [cbn; rewrite Ha; eauto|]. split; [done|].
    split; [rewrite Hanc; by apply ancestors_NoDup|].
    rewrite Hanc.
    assert (∀ x, x ∈ ancestors st1 (length (procs st)) → (x < l)%nat) as Hanc_lt.
    { intros x. unfold ancestors. rewrite Hold.
      change (Process.parent (Process.set_end (Some (Call.ts c)) p))
        with (Process.parent p).
      rewrite <-Hpar'. by apply chain_lt; [apply wf_parent|]. }
    split.
    - intros x Hx. pose proof (Hanc_lt x Hx) as Hxl.
      rewrite (Hin x Hx). unfold child_samples_at.
      rewrite Hother by lia.
      destruct (lookup_lt_is_Some_2 (procs st) x) as [px Hpx]; [lia|].
      rewrite Hpx. cbn. eauto.
    - intros x s Hx Hs. unfold child_samples_at in *. rewrite (Hout x Hx).
      destruct (procs st !! x) as [px|] eqn:Hpx; [|done].
      pose proof (lookup_lt_Some _ _ _ Hpx) as Hxlt.
      destruct (decide (x = l)) as [->|Hne].
      + rewrite Hl1, bool_decide_eq_true_2 by done. cbn. by rewrite Hcs'.
      + rewrite Hother, Hpx, bool_decide_eq_false_2 by (done || (intros [_ ?]; congruence)).
        done. }
  destruct (decide (Call.func c = "atexit")) as [Hexit|Hexit].
  { destruct (pmap st !! PInt (Call.pid c)) as [l|] eqn:Hl;
      [|by rewrite handle_call_atexit_unknown in Hstep].
    rewrite (handle_call_atexit_known now st c l) in Hstep by done.
    pose proof (wf_atexit_state st l c Hwf) as Hwf1.
    set (st1 := atexit_state st l c) in *.
    destruct (record_finished now st1 l) as [st3| |] eqn:Hrf; simplify_eq.
    pose proof (wf_pmap st Hwf _ _ Hl) as Hlt.
    destruct (lookup_lt_is_Some_2 _ _ Hlt) as [p Hp].
    set (p1 := Process.set_end (Some (Call.ts c))
                 (Process.set_retcode (Some (Call.retcode c)) p)).
    assert (procs st1 !! l = Some p1) as Hl1
      by (cbn; by rewrite list_lookup_alter_eq, Hp).
    assert (∀ x, child_samples_at st1 x = child_samples_at st x) as Hcs.
    { intros x. unfold child_samples_at. cbn.
      destruct (decide (l = x)) as [->|Hne].
      - rewrite list_lookup_alter_eq. by destruct (procs st !! x).
      - by rewrite list_lookup_alter_ne. }
    destruct (Process.args p) as [a|] eqn:Ha.
    2:{ rewrite (record_finished_thread now st1 _ _ Hl1) in Hrf by done.
        simplify_eq. by apply snoc_ne in Hfin. }
    destruct (record_finished_credits now st1 l p1 a _ Hwf1 Hl1 Ha Hrf)
      as (t & Hf & Hn & Ht & Hanc & Hin & Hout).
    rewrite Hf in Hfin. cbn in Hfin. apply app_inj_tail in Hfin as [_ <-].
    exists p1, t.
    split; [done|]. split; [cbn; rewrite Ha; eauto|]. split; [done|].
    split; [rewrite Hanc; by apply ancestors_NoDup|].
    rewrite Hanc. split.
    - intros x Hx. rewrite (Hin x Hx), Hcs.
      pose proof (ancestors_lt _ _ _ Hwf1 Hx) as Hxl.
      unfold child_samples_at.
      destruct (lookup_lt_is_Some_2 (procs st) x) as [px Hpx]; [lia|].
      rewrite Hpx. cbn. eauto.
    - intros x s Hx Hs.
      rewrite bool_decide_eq_false_2 by (intros [? _]; congruence).
      rewrite <-Hs, <-Hcs. unfold child_samples_at. by rewrite (Hout x Hx). }
  exfalso.
  destruct (tracked (Call.func c)) eqn:Ht.
  2:{ rewrite handle_call_ignored in Hstep by done. simplify_eq.
      by apply snoc_ne in Hfin. }
  rewrite handle_call_tracked in Hstep by done.
  assert (finished st' = finished st) as Hsame.
  { destruct (if String.eqb _ _ then _ else _) as [[]| |]; simplify_eq; try done.
    destruct (process st (Call.pid c)) as [l0|]; [|by simplify_eq].
    destruct (procs st !! l0) as [p0|]; [|done].
    destruct (dicts st !! Process.syscalls p0) as [d|]; [|done].
    destruct (SyscallCounter.add _ _). by simplify_eq. }
  rewrite Hsame in Hfin. by apply snoc_ne in Hfin.
Qed.

(** C4, the other half: an [execve] of a known pid resets [child_samples]
    of the executing process to zero, whatever had been credited to it;
    the amount stays with the copy that is retired. *)
Lemma execve_resets_child_samples now st c l p :
  wf st →
  Call.func c = "execve" → Call.retcode c = PInt 0 →
  process st (Call.pid c) = Some l → procs st !! l = Some p →
  ∃ st', handle_call now st c = (Ret (), st')
         ∧ child_samples_at st' l = Some 0
         ∧ child_samples_at st' (length (procs st))
           = Some (Process.child_samples p).
Proof.
  intros Hwf Hf Hr Hl Hp.
  rewrite (handle_call_execve_known now st c l p) by done.
  pose proof (wf_execve_state st l p (Call.args c) (Call.ts c) Hwf Hp) as Hwf1.
  set (st1 := execve_state st l p (Call.args c) (Call.ts c)) in *.
  pose proof (lookup_lt_Some _ _ _ Hp) as Hlt.
  assert (procs st1 !! length (procs st)
          = Some (Process.set_end (Some (Call.ts c)) p)) as Hold.
  { cbn. rewrite lookup_app_r; rewrite length_insert; [|done].
    by rewrite Nat.sub_diag. }
  assert (child_samples_at st1 l = Some 0) as Hl1.
  { unfold child_samples_at. cbn.
    rewrite lookup_app_l by (by rewrite length_insert).
    by rewrite list_lookup_insert_eq. }
  destruct (Process.args p) as [a|] eqn:Ha.
  - destruct (record_finished_defined now st1 (length (procs st)))
      as [st2 Hrf]; [done| |].
    { cbn. rewrite length_app, length_insert. cbn. lia. }
    rewrite Hrf. exists st2. split; [done|].
    destruct (record_finished_credits now st1 _ _ a _ Hwf1 Hold Ha Hrf)
      as (t & _ & Hn & _ & _ & _ & Hout).
    split.
    + unfold child_samples_at in *. rewrite Hout; [done|].
      unfold ancestors. rewrite Hold.
      change (Process.parent (Process.set_end (Some (Call.ts c)) p))
        with (Process.parent p).
      intros Hin.
      assert (∃ p', procs st1 !! l = Some p'
                    ∧ Process.parent p' = Process.parent p) as (p' & Hp' & Hpar).
      { eexists. split; [cbn; rewrite lookup_app_l by (by rewrite length_insert);
               by rewrite list_lookup_insert_eq|done]. }
      rewrite <-Hpar in Hin.
      apply (chain_lt _ _ l p') in Hin; [lia|apply wf_parent, Hwf1|done].
    + unfold child_samples_at. by rewrite Hn.
  - rewrite (record_finished_thread now st1 _ _ Hold) by done.
    exists st1. split; [done|]. split; [done|].
    unfold child_samples_at. by rewrite Hold.
Qed.

End Retirement.

(** ** The keys of [pmap] *)

Section LivePids.

Implicit Types st : state.
Implicit Types c : Call.t.
Implicit Types cs : list Call.t.








End LivePids.

(** ** The theorems at concrete streams *)

Lemma retirement_credits_ancestors_witness :
  let st := Scenario.state_after (firstn 3 Trace.child_then_reexec) in
  let c := Scenario.exit_call 200 3000000 in
  let st' := (handle_call 0 st c).2 in
  ∃ pn t,
    procs st' !! 1%nat = Some pn ∧ is_Some (Process.args pn)
    ∧ Process_elapsed 0 st' pn = Ret t
    ∧ NoDup (ancestors st' 1)
    ∧ (∀ x, x ∈ ancestors st' 1 →
            ∃ s, child_samples_at st x = Some s
                 ∧ child_samples_at st' x = Some (s + t))
    ∧ (∀ x s, x ∉ ancestors st' 1 →
              child_samples_at st x = Some s →
              child_samples_at st' x
              = Some (if bool_decide (Call.func c = "execve"
                                      ∧ process st (Call.pid c) = Some x)
                      then 0 else s)).
Proof.
  intros st c st'.
  apply (retirement_credits_ancestors 0 st c st' 1).
  - apply wf_handle_calls, wf_init.
  - vm_compute. reflexivity.
  - vm_compute. reflexivity.
Defined.

(** C4, as stated: pid 200 has been retired with [args] and a self-time
    of one second, its only ancestor is the process of pid 100, and after
    the second [execve] of pid 100 the [child_samples] of that ancestor
    are zero: the self-time is no longer contained in them. *)
Lemma self_time_dropped_by_ancestor_execve :
  let st := Scenario.state_after Trace.child_then_reexec in
  finished st = [1; 3]%nat
  ∧ (Process.args <$> procs st !! 1%nat) = Some (Some Scenario.ls_args)
  ∧ (Process_elapsed 0 st <$> procs st !! 1%nat) = Some (Ret 1000000)
  ∧ ancestors st 1 = [0%nat]
  ∧ pmap st !! PInt 100 = Some 0%nat
  ∧ child_samples_at st 0 = Some 0
  ∧ child_samples_at (Scenario.state_after (firstn 4 Trace.child_then_reexec)) 0
    = Some 1000000.
Proof. vm_compute. repeat split. Qed.




(** * Further properties of the parser *)

Section ParserExtras.

Implicit Types s t w : string.





Lemma endswith_append s suf : endswith (s +:+ suf) suf = true.
Proof.
  unfold endswith, take_end. rewrite length_append.
  replace (String.length s + String.length suf - String.length suf)%nat
    with (String.length s) by lia.
  rewrite drop_append_length, String.eqb_refl. cbn.
  apply Nat.leb_le. lia.
Qed.

Lemma drop_end_append s suf : drop_end (String.length suf) (s +:+ suf) = s.
Proof.
  unfold drop_end. rewrite length_append.
  replace (String.length s + String.length suf - String.length suf)%nat
    with (String.length s) by lia.
  apply take_append_length.
Qed.

Lemma has_space_cons_false c s :
  has_space (String c s) = false → is_space c = false ∧ has_space s = false.
Proof. cbn. by intros ?%orb_false_iff. Qed.

Lemma span_word_append w t :
  has_space w = false → span_word (w +:+ String " " t) = (w, String " " t).
Proof.
  induction w as [|c w IH]; [done|].
  intros [Hc Hw]%has_space_cons_false.
  change (String c w +:+ String " " t) with (String c (w +:+ String " " t)).
  cbn [span_word]. by rewrite Hc, IH.
Qed.

Lemma first_word_append w t :
  w ≠ "" → has_space w = false → first_word (w +:+ String " " t) = Some w.
Proof.
  intros Hne Hw. destruct w as [|c w]; [done|].
  pose proof (has_space_cons_false _ _ Hw) as [Hc _].
  unfold first_word.
  change (String c w +:+ String " " t) with (String c (w +:+ String " " t)).
  cbn [lstrip]. rewrite Hc.
  change (String c (w +:+ String " " t)) with (String c w +:+ String " " t).
  by rewrite span_word_append.
Qed.

(** An exit line gives the synthetic call [atexit] with the first word
    after the marker as return code; what follows that word (the closing
    [+++] of strace) is not looked at. *)
Theorem parse_call_exit_line w t n :
  w ≠ "" → has_space w = false → py_int w = Some n →
  parse_call ("+++ exited with " +:+ w +:+ String " " t)
  = Ret ("atexit", None, PInt n, None, None).
Proof.
  intros Hne Hw Hn. unfold parse_call.
  rewrite startswith_append, drop_append_length.
  rewrite first_word_append by done. cbn. by rewrite Hn.
Qed.

Lemma parse_call_exit_line_witness :
  parse_call "+++ exited with 0 +++" = Ret ("atexit", None, PInt 0, None, None)
  ∧ parse_call "+++ exited with 137 whatever"
    = Ret ("atexit", None, PInt 137, None, None).
Proof.
  split.
  - apply (parse_call_exit_line "0" "+++" 0); [discriminate | reflexivity..].
  - apply (parse_call_exit_line "137" "whatever" 137);
      [discriminate | reflexivity..].
Defined.

(** A signal line gives the synthetic call [interrupt]: the signal name is
    [args], the text between the name and the closing [ ---] is the return
    code, as a string. *)
Theorem parse_call_signal_line sig payload :
  contains " " sig = false →
  parse_call ("--- " +:+ sig +:+ " " +:+ payload +:+ " ---")
  = Ret ("interrupt", Some sig, PStr payload, None, None).
Proof.
  intros Hsig. unfold parse_call.
  change (startswith ("--- " +:+ sig +:+ " " +:+ payload +:+ " ---")
            "+++ exited with ") with false.
  rewrite startswith_append, drop_append_length.
  rewrite split1_space_append by done. cbn [or_raise mbind result_bind].
  rewrite endswith_append. cbn [negb].
  change (drop_end 4 (payload +:+ " ---"))
    with (drop_end (String.length " ---") (payload +:+ " ---")).
  by rewrite drop_end_append.
Qed.

Lemma parse_call_signal_line_witness :
  parse_call "--- SIGCHLD {si_signo=SIGCHLD, si_code=CLD_EXITED} ---"
  = Ret ("interrupt", Some "SIGCHLD",
         PStr "{si_signo=SIGCHLD, si_code=CLD_EXITED}", None, None).
Proof.
  apply (parse_call_signal_line "SIGCHLD" "{si_signo=SIGCHLD, si_code=CLD_EXITED}").
  reflexivity.
Defined.

Lemma prefix_eq_space s :
  contains "=" s = false → String.prefix "= " s = false.
Proof.
  destruct s as [|d s]; [done|]. intros [Hd _]%contains_cons_false.
  change (String.prefix "= " (String d s))
    with (if ascii_dec "=" d then String.prefix " " s else false).
  destruct (ascii_dec "=" d); [congruence | done].
Qed.

Lemma prefix_sep_eq c s :
  String.prefix " = " (String c s)
  = bool_decide (c = " "%char) && String.prefix "= " s.
Proof.
  change (String.prefix " = " (String c s))
    with (if ascii_dec " " c then String.prefix "= " s else false).
  destruct (ascii_dec " " c) as [<-|Hne]; [done|].
  rewrite bool_decide_eq_false_2; [done | congruence].
Qed.

Lemma rsplit1_eq_none s : contains "=" s = false → rsplit1 " = " s = None.
Proof.
  induction s as [|c s IH]; [done|].
  intros [Hc Hs]%contains_cons_false.
  cbn [rsplit1]. rewrite IH by done.
  by rewrite prefix_sep_eq, prefix_eq_space, andb_false_r.
Qed.


(** A line that is neither an exit line nor a signal line and holds no
    [=] at all, such as the [+++ killed by SIGKILL +++] of strace, does
    not parse: the unpacking of the split at [" = "] raises [ValueError]. *)
Theorem parse_call_without_equals call :
  startswith call "+++ exited with " = false →
  startswith call "--- " = false →
  contains "=" call = false →
  parse_call call = Raise ValueError.
Proof.
  intros H1 H2 H3. unfold parse_call.
  by rewrite H1, H2, rsplit1_eq_none.
Qed.

Lemma parse_call_without_equals_witness :
  parse_call "+++ killed by SIGKILL +++" = Raise ValueError.
Proof.
  apply parse_call_without_equals; reflexivity.
Defined.

End ParserExtras.

Section ParserLines.

Implicit Types s t : string.








(** The generator is incremental: parsing a text in two parts, the second
    part with the prefixes left pending by the first, yields the calls of
    the whole text; after an exception of the first part nothing of the
    second is read. *)
Theorem parse_app pending f1 f2 :
  parse pending (f1 ++ f2) =
    match parse pending f1 with
    | (cs1, Ret _, pending1) =>
        let '(cs2, out, pending2) := parse pending1 f2 in
        (cs1 ++ cs2, out, pending2)
    | r => r
    end.
Proof.
  revert pending. induction f1 as [|line f1 IH]; intros pending.
  - cbn. by destruct (parse pending f2) as [[cs2 out] pending2].
  - cbn [app parse].
    destruct (parse_line pending (strip line)) as [[r| |] pending']; [|done..].
    rewrite IH.
    destruct (parse pending' f1) as [[cs1 [[]| |]] pending1]; [|done..].
    destruct (parse pending1 f2) as [[cs2 out] pending2].
    by destruct r.
Qed.

(** The loop of [_collapse_stacks] against the two passes. *)
Lemma collapse_loop_parse_handle now pending st f :
  collapse_loop now pending st f =
    let '(cs, out, _) := parse pending f in
    match handle_calls now st cs with
    | (Ret _, st') => (out, st')
    | r => r
    end.
Proof.
  revert pending st. induction f as [|line f IH]; intros pending st; [done|].
  cbn [collapse_loop parse].
  destruct (parse_line pending (strip line)) as [[[c|]| |] pending']; [| |done..].
  - specialize (IH pending').
    destruct (parse pending' f) as [[cs out] pending''].
    cbn [handle_calls].
    destruct (handle_call now st c) as [[[]| |] st']; [apply IH|done..].
  - rewrite IH. by destruct (parse pending' f) as [[cs out] pending''].
Qed.

(** [_collapse_stacks], which handles each call before the next line is
    read, gives the same result as parsing all the lines first and
    handling the calls afterwards: the rows of the state after the last
    call if neither pass raised, else the exception, where one of the
    collapser takes precedence over a later one of the parser.  No row
    is written for the calls handled before an exception. *)
Theorem collapse_stacks_sequential now f :
  collapse_stacks now f =
    let '(cs, out, _) := parse ∅ f in
    match handle_calls now init_state cs with
    | (Ret _, st) => _ ← out; render now st
    | (Raise e, _) => Raise e
    | (Undefined, _) => Undefined
    end.
Proof.
  unfold collapse_stacks. rewrite collapse_loop_parse_handle.
  destruct (parse ∅ f) as [[cs out] pending].
  destruct (handle_calls now init_state cs) as [[[]| |] st]; [|done..].
  by destruct out as [[]| |].
Qed.

End ParserLines.

(** * Further properties of the collapser *)

Section CollapserExtras.

Implicit Types st : state.
Implicit Types c : Call.t.

(** Calls that leave the collapser as it is: a failed [execve], a call of
    a function that is neither dispatched nor tracked (a signal, a
    [wait4]), and a tracked call of a pid that [pmap] does not know. *)
Theorem ignored_calls_change_nothing now st c :
  (Call.func c = "execve" ∧ Call.retcode c ≠ PInt 0)
  ∨ (Call.func c ≠ "clone" ∧ Call.func c ≠ "execve"
     ∧ Call.func c ≠ "atexit" ∧ tracked (Call.func c) = false)
  ∨ (tracked (Call.func c) = true ∧ process st (Call.pid c) = None
     ∧ (Call.func c = "read" → is_Some (Call.args c))) →
  handle_call now st c = (Ret (), st).
Proof.
  intros [[Hf Hr]|[(H1 & H2 & H3 & Ht)|(Ht & Hp & Ha)]].
  - by apply handle_call_execve_failed.
  - by apply handle_call_ignored.
  - rewrite handle_call_tracked by done. rewrite Hp.
    destruct (String.eqb_spec (Call.func c) "read") as [Hr|Hr]; [|done].
    destruct (Ha Hr) as [a ->]. by destruct (String.eqb _ _).
Qed.

Lemma ignored_calls_change_nothing_witness :
  let st := Scenario.state_after Trace.thread in
  handle_call 0 st (Scenario.call 200 5 "execve" Scenario.ls_args (-1) 10)
  = (Ret (), st)
  ∧ handle_call 0 st
      (Call.mk 200 5 "interrupt" (Some "SIGCHLD") (PStr "{}") None None)
    = (Ret (), st)
  ∧ handle_call 0 st (Trace.open_call 999) = (Ret (), st).
Proof.
  intros st. split; [|split]; apply ignored_calls_change_nothing.
  - left. split; [reflexivity | discriminate].
  - right. left. repeat split; (discriminate || reflexivity).
  - right. right. split; [reflexivity|]. split; [reflexivity | discriminate].
Defined.

Lemma sumcalls_dict_set_any k v d :
  sumcalls (dict_set k v d)
  = sumcalls d + SyscallCounter.elapsed v
    - SyscallCounter.elapsed (dict_default k d).
Proof.
  unfold dict_default, sumcalls. induction d as [|[k' v'] d IH]; cbn.
  - lia.
  - destruct (String.eqb k' k); cbn; [lia|]. rewrite IH. lia.
Qed.

Lemma sumcalls_dict_set k n e d :
  sumcalls (dict_set k (SyscallCounter.mk n
                          (SyscallCounter.elapsed (dict_default k d) + e)) d)
  = sumcalls d + e.
Proof. rewrite sumcalls_dict_set_any. cbn. lia. Qed.

Lemma dict_get_set_ne k k' v d :
  k' ≠ k → dict_get k' (dict_set k v d) = dict_get k' d.
Proof.
  intros Hne. induction d as [|[k0 v0] d IH]; cbn.
  - by rewrite (proj2 (String.eqb_neq k k')).
  - destruct (String.eqb_spec k0 k) as [->|Hk]; cbn.
    + by rewrite (proj2 (String.eqb_neq k k')).
    + by rewrite IH.
Qed.

(** A tracked call that is counted touches one dictionary only, that of
    the process of its pid, and there only the counter of its function:
    the elapsed total of that dictionary grows by the elapsed time of the
    call, so the self-time of every process that refers to the dictionary
    falls by that time and the self-time of every other process stays. *)
Theorem tracked_call_reduces_self_time now st c l p d e :
  tracked (Call.func c) = true → pipe_read c = false →
  (Call.func c = "read" → is_Some (Call.args c)) →
  Call.elapsed c = Some e →
  process st (Call.pid c) = Some l → procs st !! l = Some p →
  dicts st !! Process.syscalls p = Some d →
  ∃ st',
    handle_call now st c = (Ret (), st')
    ∧ procs st' = procs st ∧ pmap st' = pmap st ∧ finished st' = finished st
    ∧ (∀ f, f ≠ Call.func c →
            counter_at st' l f = counter_at st l f)
    ∧ (∀ q t, Process_elapsed now st q = Ret t →
              Process_elapsed now st' q
              = Ret (if bool_decide (Process.syscalls q = Process.syscalls p)
                     then t - e else t)).
Proof.
  intros Ht Hp Ha He Hl Hpl Hd.
  rewrite (handle_call_counted now st c l p d e) by done.
  eexists. split; [done|]. cbn. repeat split.
  - intros f Hf. unfold counter_at. cbn. rewrite Hpl. cbn.
    rewrite list_lookup_insert_eq by eauto using lookup_lt_Some.
    rewrite Hd. cbn. unfold dict_default. by rewrite dict_get_set_ne.
  - intros q t. unfold Process_elapsed. cbn.
    destruct (decide (Process.syscalls q = Process.syscalls p)) as [Heq|Hne].
    + rewrite Heq, Hd, bool_decide_eq_true_2 by done.
      rewrite list_lookup_insert_eq by eauto using lookup_lt_Some.
      intros [= <-]. f_equal. rewrite sumcalls_dict_set. lia.
    + rewrite list_lookup_insert_ne, bool_decide_eq_false_2 by done. done.
Qed.

Lemma tracked_call_reduces_self_time_witness :
  let st := Scenario.state_after Trace.thread in
  let c := Trace.open_call 201 in
  let p := Process.mk None (PInt 201) (Some 0%nat) 1000000 None 0 0%nat None in
  ∃ st',
    handle_call 0 st c = (Ret (), st')
    ∧ procs st' = procs st ∧ pmap st' = pmap st ∧ finished st' = finished st
    ∧ (∀ f, f ≠ Call.func c → counter_at st' 1 f = counter_at st 1 f)
    ∧ (∀ q t, Process_elapsed 0 st q = Ret t →
              Process_elapsed 0 st' q
              = Ret (if bool_decide (Process.syscalls q = Process.syscalls p)
                     then t - 7 else t)).
Proof.
  intros st c p.
  apply (tracked_call_reduces_self_time 0 st c 1%nat p [] 7);
    [reflexivity | reflexivity | discriminate | reflexivity..].
Defined.

End CollapserExtras.

Section Shape.

Implicit Types st : state.
Implicit Types c : Call.t.

Lemma record_finished_shape now st l st' :
  wf st → record_finished now st l = Ret st' →
  pmap st' = pmap st ∧ dicts st' = dicts st
  ∧ (finished st' = finished st ∨ finished st' = finished st ++ [l])
  ∧ ∀ i, identity <$> procs st' !! i = identity <$> procs st !! i.
Proof.
  intros Hwf Hr. pose proof Hr as Hr0. unfold record_finished in Hr.
  destruct (procs st !! l) as [p|] eqn:Hl; [|done].
  destruct (Process.args p) as [a|] eqn:Ha; [|simplify_eq; eauto].
  destruct (record_finished_process now st l p a Hwf Hl Ha)
    as (t & h' & Ht & Hr' & Hlk).
  rewrite Hr' in Hr0. simplify_eq. cbn. repeat split; [by right|].
  intros i. rewrite Hlk. destruct (procs st !! i); [cbn|done].
  by destruct (bool_decide _).
Qed.

Lemma set_dicts_same st : set_dicts (dicts st) st = st.
Proof. by destruct st. Qed.

Lemma handle_call_tracked_state now st c :
  tracked (Call.func c) = true →
  ∃ ds, (handle_call now st c).2 = set_dicts ds st.
Proof.
  intros Ht. rewrite handle_call_tracked by done.
  destruct (if String.eqb _ _ then _ else _) as [[]| |];
    try (exists (dicts st); by rewrite set_dicts_same).
  destruct (process st (Call.pid c)) as [l|];
    [|exists (dicts st); by rewrite set_dicts_same].
  destruct (procs st !! l) as [p|];
    [|exists (dicts st); by rewrite set_dicts_same].
  destruct (dicts st !! Process.syscalls p) as [d|];
    [|exists (dicts st); by rewrite set_dicts_same].
  destruct (SyscallCounter.add _ _). by eexists.
Qed.

(** What any call, whatever its outcome, does to the objects, to
    [finished] and to [pmap]. *)
Lemma handle_call_shape now st c :
  wf st →
  (∀ l p, procs st !! l = Some p →
          identity <$> procs (handle_call now st c).2 !! l = Some (identity p))
  ∧ (∃ suffix, finished (handle_call now st c).2 = finished st ++ suffix
               ∧ (length suffix ≤ 1)%nat)
  ∧ (∀ k l, pmap (handle_call now st c).2 !! k = Some l →
            pmap st !! k = Some l
            ∨ ((length (procs st) ≤ l)%nat
               ∧ Process.pid <$> procs (handle_call now st c).2 !! l = Some k)).
Proof.
  intros Hwf.
  assert (∀ st0 : state,
            procs st0 = procs st → finished st0 = finished st →
            pmap st0 = pmap st →
            (∀ l p, procs st !! l = Some p →
                    identity <$> procs st0 !! l = Some (identity p))
            ∧ (∃ suffix, finished st0 = finished st ++ suffix
                         ∧ (length suffix ≤ 1)%nat)
            ∧ (∀ k l, pmap st0 !! k = Some l →
                      pmap st !! k = Some l
                      ∨ ((length (procs st) ≤ l)%nat
                         ∧ Process.pid <$> procs st0 !! l = Some k))) as Hsame.
  { intros st0 -> -> ->. split; [by intros l p ->|].
    split; [exists []; rewrite app_nil_r; split; [done | cbn; lia]
           | intros; by left]. }
  assert (∀ p0 ds m,
            (m = <[Process.pid p0 := length (procs st)]> (pmap st)) →
            let st0 := mkState (procs st ++ [p0]) ds m (finished st) in
            (∀ l p, procs st !! l = Some p →
                    identity <$> procs st0 !! l = Some (identity p))
            ∧ (∃ suffix, finished st0 = finished st ++ suffix
                         ∧ (length suffix ≤ 1)%nat)
            ∧ (∀ k l, pmap st0 !! k = Some l →
                      pmap st !! k = Some l
                      ∨ ((length (procs st) ≤ l)%nat
                         ∧ Process.pid <$> procs st0 !! l = Some k))) as Hpush.
  { intros p0 ds m -> st0. split; [|split]; cbn.
    - intros l p Hl. by rewrite (lookup_app_l_Some _ _ _ _ Hl).
    - exists []. rewrite app_nil_r. split; [done | cbn; lia].
    - intros k l [[<- <-]|[_ Hk]]%lookup_insert_Some; [right|by left].
      split; [done|]. by rewrite lookup_app_r, Nat.sub_diag. }
  assert (∀ st1 n st2,
            wf st1 → record_finished now st1 n = Ret st2 →
            (∀ l p, procs st !! l = Some p →
                    identity <$> procs st1 !! l = Some (identity p)) →
            finished st1 = finished st →
            (∀ k l, pmap st1 !! k = Some l → pmap st !! k = Some l) →
            (∀ l p, procs st !! l = Some p →
                    identity <$> procs st2 !! l = Some (identity p))
            ∧ (∃ suffix, finished st2 = finished st ++ suffix
                         ∧ (length suffix ≤ 1)%nat)
            ∧ (∀ k l, pmap st2 !! k = Some l →
                      pmap st !! k = Some l
                      ∨ ((length (procs st) ≤ l)%nat
                         ∧ Process.pid <$> procs st2 !! l = Some k))) as Hretire.
  { intros st1 n st2 Hwf1 Hrf Hid Hfin Hmap.
    destruct (record_finished_shape _ _ _ _ Hwf1 Hrf) as (Hm & _ & Hf & Hi).
    split; [|split].
    - intros l p Hl. rewrite Hi. by apply Hid.
    - destruct Hf as [->| ->]; rewrite Hfin.
      + exists []. rewrite app_nil_r. split; [done | cbn; lia].
      + exists [n]. split; [done | cbn; lia].
    - intros k l Hk. left. apply Hmap. by rewrite <-Hm. }
  destruct (decide (Call.func c = "clone")) as [Hclone|Hclone].
  { rewrite handle_call_clone by done. cbn [snd].
    destruct (process st (Call.pid c)); by apply Hpush. }
  destruct (decide (Call.func c = "execve")) as [Hexec|Hexec].
  { destruct (decide (Call.retcode c = PInt 0)) as [Hr|Hr].
    2:{ rewrite handle_call_execve_failed by done. by apply Hsame. }
    destruct (process st (Call.pid c)) as [l|] eqn:Hl.
    2:{ rewrite handle_call_execve_root by done. by apply Hpush. }
    pose proof (wf_pmap st Hwf _ _ Hl) as Hlt.
    destruct (lookup_lt_is_Some_2 _ _ Hlt) as [p Hp].
    rewrite (handle_call_execve_known now st c l p) by done.
    pose proof (wf_execve_state st l p (Call.args c) (Call.ts c) Hwf Hp) as Hwf1.
    destruct (record_finished_defined now
                (execve_state st l p (Call.args c) (Call.ts c))
                (length (procs st)) Hwf1) as [st2 Hrf].
    { cbn. rewrite length_app, length_insert. cbn. lia. }
    rewrite Hrf. cbn [snd]. apply (Hretire _ _ _ Hwf1 Hrf); [|done..].
    intros i pi Hi. cbn.
    rewrite lookup_app_l
      by (rewrite length_insert; eauto using lookup_lt_Some).
    destruct (decide (l = i)) as [->|Hne].
    - rewrite list_lookup_insert_eq by done. by simplify_eq.
    - by rewrite list_lookup_insert_ne, Hi. }
  destruct (decide (Call.func c = "atexit")) as [Hexit|Hexit].
  { destruct (pmap st !! PInt (Call.pid c)) as [l|] eqn:Hl.
    2:{ rewrite handle_call_atexit_unknown by done. by apply Hsame. }
    rewrite (handle_call_atexit_known now st c l) by done.
    pose proof (wf_atexit_state st l c Hwf) as Hwf1.
    destruct (record_finished_defined now (atexit_state st l c) l Hwf1)
      as [st3 Hrf].
    { cbn. rewrite length_alter. by apply (wf_pmap st Hwf (PInt (Call.pid c))). }
    rewrite Hrf. cbn [snd]. apply (Hretire _ _ _ Hwf1 Hrf); [|done|].
    - intros i pi Hi. cbn. destruct (decide (l = i)) as [->|Hne].
      + by rewrite list_lookup_alter_eq, Hi.
      + by rewrite list_lookup_alter_ne, Hi.
    - intros k i. cbn. by intros [_ ?]%lookup_delete_Some. }
  destruct (tracked (Call.func c)) eqn:Ht.
  - destruct (handle_call_tracked_state now st c Ht) as [ds ->]. by apply Hsame.
  - rewrite handle_call_ignored by done. by apply Hsame.
Qed.

(** [finished] is append-only: a call adds at most one process at its
    end and never removes or reorders one, so a run of calls leaves the
    rows recorded before in place and in order. *)
Theorem finished_append_only now st cs :
  wf st →
  ∃ suffix, finished (handle_calls now st cs).2 = finished st ++ suffix
            ∧ (length suffix ≤ length cs)%nat.
Proof.
  revert st. induction cs as [|c cs IH]; intros st Hwf.
  - exists []. rewrite app_nil_r. split; [done | cbn; lia].
  - cbn [handle_calls].
    destruct (handle_call_shape now st c Hwf) as (_ & (s1 & Hs1 & Hl1) & _).
    pose proof (wf_handle_call now st c Hwf) as Hwf'.
    destruct (handle_call now st c) as [[[]| |] st'] eqn:Hstep; cbn [snd] in *.
    + destruct (IH st' Hwf') as (s2 & Hs2 & Hl2).
      exists (s1 ++ s2). rewrite Hs2, Hs1, <-app_assoc. split; [done|].
      rewrite length_app. cbn. lia.
    + exists s1. split; [done|]. cbn. lia.
    + exists s1. split; [done|]. cbn. lia.
Qed.

Lemma finished_append_only_witness :
  let st := Scenario.state_after (firstn 4 Trace.child_then_reexec) in
  ∃ suffix,
    finished (handle_calls 0 st (skipn 4 Trace.child_then_reexec)).2
    = finished st ++ suffix
    ∧ (length suffix ≤ length (skipn 4 Trace.child_then_reexec))%nat.
Proof.
  intros st.
  apply (finished_append_only 0 st (skipn 4 Trace.child_then_reexec)).
  apply wf_handle_calls, wf_init.
Defined.

(** A process object keeps its [pid] and its [parent] for good: no call
    changes them or removes the object. *)
Theorem pid_and_parent_never_change now st cs l p :
  wf st → procs st !! l = Some p →
  ∃ p', procs (handle_calls now st cs).2 !! l = Some p'
        ∧ Process.pid p' = Process.pid p
        ∧ Process.parent p' = Process.parent p.
Proof.
  revert st p. induction cs as [|c cs IH]; intros st p Hwf Hl; [by exists p|].
  destruct (handle_call_shape now st c Hwf) as (Hid & _ & _).
  pose proof (wf_handle_call now st c Hwf) as Hwf'.
  specialize (Hid l p Hl).
  cbn [handle_calls].
  destruct (handle_call now st c) as [[[]| |] st'] eqn:Hstep; cbn [snd] in *.
  - destruct (procs st' !! l) as [p1|] eqn:Hl1; [|done].
    destruct (IH st' p1 Hwf' Hl1) as (p' & Hp' & Hpid & Hpar).
    exists p'. unfold identity in Hid. cbn in Hid. simplify_eq.
    split; [done|]. split; congruence.
  - destruct (procs st' !! l) as [p1|] eqn:Hl1; [|done].
    exists p1. unfold identity in Hid. cbn in Hid. by simplify_eq.
  - destruct (procs st' !! l) as [p1|] eqn:Hl1; [|done].
    exists p1. unfold identity in Hid. cbn in Hid. by simplify_eq.
Qed.

Lemma pid_and_parent_never_change_witness :
  let st := Scenario.state_after (firstn 2 Trace.child_then_reexec) in
  ∃ p', procs (handle_calls 0 st (skipn 2 Trace.child_then_reexec)).2 !! 1%nat
        = Some p'
        ∧ Process.pid p' = PInt 200 ∧ Process.parent p' = Some 0%nat.
Proof.
  intros st.
  apply (pid_and_parent_never_change 0 st (skipn 2 Trace.child_then_reexec) 1
           (Process.mk None (PInt 200) (Some 0%nat) 1000000 None 0 0%nat None)).
  - apply wf_handle_calls, wf_init.
  - reflexivity.
Defined.

(** In every state that the collapser builds, the process stored under a
    key of [pmap] has that key as its [pid]; in particular two keys never
    share a process object. *)
Theorem pmap_key_is_pid now cs k l p :
  pmap (handle_calls now init_state cs).2 !! k = Some l →
  procs (handle_calls now init_state cs).2 !! l = Some p →
  Process.pid p = k
  ∧ ∀ k', pmap (handle_calls now init_state cs).2 !! k' = Some l → k' = k.
Proof.
  assert (∀ st, wf st →
            (∀ k l p, pmap st !! k = Some l → procs st !! l = Some p →
                      Process.pid p = k) →
            ∀ k l p,
              pmap (handle_calls now st cs).2 !! k = Some l →
              procs (handle_calls now st cs).2 !! l = Some p →
              Process.pid p = k) as Hinv.
  { induction cs as [|c cs IH]; intros st Hwf Hst; [done|].
    cbn [handle_calls].
    destruct (handle_call_shape now st c Hwf) as (Hid & _ & Hmap).
    pose proof (wf_handle_call now st c Hwf) as Hwf'.
    assert (∀ k l p, pmap (handle_call now st c).2 !! k = Some l →
                     procs (handle_call now st c).2 !! l = Some p →
                     Process.pid p = k) as Hst'.
    { intros k1 l1 p1 Hk1 Hl1. destruct (Hmap k1 l1 Hk1) as [Hk0|[_ Hnew]].
      - pose proof (wf_pmap st Hwf _ _ Hk0) as Hlt.
        destruct (lookup_lt_is_Some_2 _ _ Hlt) as [p0 Hp0].
        specialize (Hid l1 p0 Hp0). rewrite Hl1 in Hid. cbn in Hid.
        unfold identity in Hid. simplify_eq.
        replace (Process.pid p1) with (Process.pid p0) by congruence.
        by apply (Hst _ l1).
      - rewrite Hl1 in Hnew. by simplify_eq/=. }
    destruct (handle_call now st c) as [[[]| |] st']; cbn [snd] in *;
      [by apply IH | done..]. }
  intros Hk Hl.
  assert (Process.pid p = k) as Hpid.
  { apply (Hinv init_state wf_init) with (l := l); [|done..].
    intros k0 l0 p0 H. cbn in H. by rewrite lookup_empty in H. }
  split; [done|]. intros k' Hk'. rewrite <-Hpid. symmetry.
  apply (Hinv init_state wf_init) with (l := l); [|done..].
  intros k0 l0 p0 H. cbn in H. by rewrite lookup_empty in H.
Qed.

Lemma pmap_key_is_pid_witness :
  let st := (handle_calls 0 init_state Trace.parent_reexec).2 in
  Process.pid (Process.mk None (PInt 201) (Some 0%nat) 1000000 None 0 0%nat None)
  = PInt 201
  ∧ ∀ k', pmap st !! k' = Some 1%nat → k' = PInt 201.
Proof.
  intros st.
  apply (pmap_key_is_pid 0 Trace.parent_reexec (PInt 201) 1%nat); reflexivity.
Defined.






End Shape.

Section Epochs.

Implicit Types st : state.
Implicit Types c : Call.t.

Lemma execve_state_lookups st l p args ts :
  procs st !! l = Some p →
  procs (execve_state st l p args ts) !! l
  = Some (Process.mk args (Process.pid p) (Process.parent p) ts None 0
            (length (dicts st)) (Process.retcode p))
  ∧ procs (execve_state st l p args ts) !! length (procs st)
    = Some (Process.set_end (Some ts) p)
  ∧ (∀ x, x ≠ l → (x < length (procs st))%nat →
          procs (execve_state st l p args ts) !! x = procs st !! x).
Proof.
  intros Hl. pose proof (lookup_lt_Some _ _ _ Hl) as Hlt. cbn.
  split; [|split].
  - rewrite lookup_app_l by (by rewrite length_insert).
    by rewrite list_lookup_insert_eq.
  - rewrite lookup_app_r; rewrite length_insert; [|done].
    by rewrite Nat.sub_diag.
  - intros x Hx Hxlt. rewrite lookup_app_l by (by rewrite length_insert).
    by rewrite list_lookup_insert_ne.
Qed.

Lemma execve_copy_ancestors_below st l p args ts x :
  wf st → procs st !! l = Some p →
  x ∈ ancestors (execve_state st l p args ts) (length (procs st)) →
  (x < l)%nat.
Proof.
  intros Hwf Hl.
  destruct (execve_state_lookups st l p args ts Hl) as (Hl1 & Hold & _).
  unfold ancestors. rewrite Hold.
  change (Process.parent (Process.set_end (Some ts) p))
    with (Process.parent
            (Process.mk args (Process.pid p) (Process.parent p) ts None 0
               (length (dicts st)) (Process.retcode p))).
  apply chain_lt; [|done]. by apply wf_parent, wf_execve_state.
Qed.



(** The calls that retire a process with [args]: the state in which
    [record_finished] runs, and what it shares with the state before the
    call. *)
Lemma retiring_call now st c st' n :
  wf st →
  handle_call now st c = (Ret (), st') →
  finished st' = finished st ++ [n] →
  ∃ st1 pn a,
    wf st1 ∧ procs st1 !! n = Some pn ∧ Process.args pn = Some a
    ∧ record_finished now st1 n = Ret st'
    ∧ (∀ x, x ∈ ancestors st1 n →
            (x < length (procs st))%nat ∧ procs st1 !! x = procs st !! x)
    ∧ (∀ i d, dicts st !! i = Some d → dicts st1 !! i = Some d).
Proof.
  intros Hwf Hstep Hfin.
  destruct (decide (Call.func c = "clone")) as [Hclone|Hclone].
  { rewrite handle_call_clone in Hstep by done.
    destruct (process st (Call.pid c)); simplify_eq; by apply snoc_ne in Hfin. }
  destruct (decide (Call.func c = "execve")) as [Hexec|Hexec].
  { destruct (decide (Call.retcode c = PInt 0)) as [Hr|Hr].
    2:{ rewrite handle_call_execve_failed in Hstep by done. simplify_eq.
        by apply snoc_ne in Hfin. }
    destruct (process st (Call.pid c)) as [l|] eqn:Hl.
    2:{ rewrite handle_call_execve_root in Hstep by done. simplify_eq.
        by apply snoc_ne in Hfin. }
    pose proof (wf_pmap st Hwf _ _ Hl) as Hlt.
    destruct (lookup_lt_is_Some_2 _ _ Hlt) as [p Hp].
    rewrite (handle_call_execve_known now st c l p) in Hstep by done.
    pose proof (wf_execve_state st l p (Call.args c) (Call.ts c) Hwf Hp) as Hwf1.
    destruct (execve_state_lookups st l p (Call.args c) (Call.ts c) Hp)
      as (Hl1 & Hold & Hother).
    destruct (record_finished now _ (length (procs st))) as [st2| |] eqn:Hrf;
      simplify_eq.
    destruct (Process.args p) as [a|] eqn:Ha.
    2:{ rewrite (record_finished_thread now _ _ _ Hold) in Hrf by done.
        simplify_eq. by apply snoc_ne in Hfin. }
    destruct (record_finished_shape _ _ _ _ Hwf1 Hrf) as (_ & _ & Hf & _).
    destruct Hf as [Hf|Hf]; rewrite Hf in Hfin; cbn in Hfin;
      [by apply snoc_ne in Hfin|].
    apply app_inj_tail in Hfin as [_ <-].
    eexists _, _, a. split; [done|]. split; [done|]. split; [done|].
    split; [done|]. split.
    - intros x Hx%(execve_copy_ancestors_below st l p _ _ x Hwf Hp).
      split; [lia|]. apply Hother; lia.
    - intros i d Hd. cbn. by apply lookup_app_l_Some. }
  destruct (decide (Call.func c = "atexit")) as [Hexit|Hexit].
  { destruct (pmap st !! PInt (Call.pid c)) as [l|] eqn:Hl;
      [|by rewrite handle_call_atexit_unknown in Hstep].
    rewrite (handle_call_atexit_known now st c l) in Hstep by done.
    pose proof (wf_atexit_state st l c Hwf) as Hwf1.
    destruct (record_finished now _ l) as [st3| |] eqn:Hrf; simplify_eq.
    pose proof (wf_pmap st Hwf _ _ Hl) as Hlt.
    destruct (lookup_lt_is_Some_2 _ _ Hlt) as [p Hp].
    assert (procs (atexit_state st l c) !! l
            = Some (Process.set_end (Some (Call.ts c))
                      (Process.set_retcode (Some (Call.retcode c)) p))) as Hl1
      by (cbn; by rewrite list_lookup_alter_eq, Hp).
    destruct (Process.args p) as [a|] eqn:Ha.
    2:{ rewrite (record_finished_thread now _ _ _ Hl1) in Hrf by done.
        simplify_eq. by apply snoc_ne in Hfin. }
    destruct (record_finished_shape _ _ _ _ Hwf1 Hrf) as (_ & _ & Hf & _).
    destruct Hf as [Hf|Hf]; rewrite Hf in Hfin; cbn in Hfin;
      [by apply snoc_ne in Hfin|].
    apply app_inj_tail in Hfin as [_ <-].
    eexists _, _, a. split; [done|]. split; [done|]. split; [done|].
    split; [done|]. split; [|done].
    intros x Hx%(ancestors_lt _ _ _ Hwf1). split; [lia|].
    cbn. rewrite list_lookup_alter_ne; [done|lia]. }
  exfalso.
  destruct (tracked (Call.func c)) eqn:Ht.
  2:{ rewrite handle_call_ignored in Hstep by done. simplify_eq.
      by apply snoc_ne in Hfin. }
  destruct (handle_call_tracked_state now st c Ht) as [ds Hds].
  rewrite Hstep in Hds. cbn in Hds. subst st'. by apply snoc_ne in Hfin.
Qed.

(** When a call retires a process with [args], the self-time of each of
    its ancestors falls by the self-time of the retired process: what the
    child is credited with, the processes above it lose. *)
Theorem retirement_reduces_ancestor_self_time now st c st' n :
  wf st →
  handle_call now st c = (Ret (), st') →
  finished st' = finished st ++ [n] →
  ∃ pn t,
    procs st' !! n = Some pn ∧ Process_elapsed now st' pn = Ret t
    ∧ ∀ x, x ∈ ancestors st' n →
           ∃ px px' tx,
             procs st !! x = Some px ∧ procs st' !! x = Some px'
             ∧ Process_elapsed now st px = Ret tx
             ∧ Process_elapsed now st' px' = Ret (tx - t).
Proof.
  intros Hwf Hstep Hfin.
  destruct (retiring_call now st c st' n Hwf Hstep Hfin)
    as (st1 & pn & a & Hwf1 & Hn & Ha & Hrf & Hanc1 & Hdicts).
  destruct (record_finished_credits now st1 n pn a st' Hwf1 Hn Ha Hrf)
    as (t & _ & Hn' & Ht & Hanc & _ & _).
  destruct (record_finished_process now st1 n pn a Hwf1 Hn Ha)
    as (t0 & h' & Ht0 & Hr' & Hlk).
  rewrite Hr' in Hrf. simplify_eq.
  assert (t = t0) as ->.
  { unfold Process_elapsed in Ht, Ht0. cbn in Ht. congruence. }
  exists pn, t0. split; [done|]. split; [done|].
  rewrite Hanc. intros x Hx.
  destruct (Hanc1 x Hx) as [Hxlt Hx1].
  destruct (lookup_lt_is_Some_2 _ _ Hxlt) as [px Hpx].
  pose proof (wf_dict st Hwf x px Hpx) as Hdlt.
  destruct (lookup_lt_is_Some_2 _ _ Hdlt) as [d Hd].
  exists px, (bump t0 px),
    ((match Process.end_ px with Some e => e | None => now end
      - Process.begin px) - Process.child_samples px - sumcalls d).
  split; [done|]. split.
  { cbn. by rewrite Hlk, Hx1, Hpx, bool_decide_eq_true_2. }
  unfold Process_elapsed. cbn. rewrite Hd, (Hdicts _ _ Hd).
  split; [done|]. f_equal. lia.
Qed.

Lemma retirement_reduces_ancestor_self_time_witness :
  let st := Scenario.state_after (firstn 3 Trace.child_then_reexec) in
  let c := Scenario.exit_call 200 3000000 in
  let st' := (handle_call 0 st c).2 in
  ∃ pn t,
    procs st' !! 1%nat = Some pn ∧ Process_elapsed 0 st' pn = Ret t
    ∧ ∀ x, x ∈ ancestors st' 1 →
           ∃ px px' tx,
             procs st !! x = Some px ∧ procs st' !! x = Some px'
             ∧ Process_elapsed 0 st px = Ret tx
             ∧ Process_elapsed 0 st' px' = Ret (tx - t).
Proof.
  intros st c st'.
  apply (retirement_reduces_ancestor_self_time 0 st c st' 1).
  - apply wf_handle_calls, wf_init.
  - vm_compute. reflexivity.
  - vm_compute. reflexivity.
Defined.

End Epochs.

(** * Further properties of the rendering *)

Section Rendering.

Implicit Types st : state.










End Rendering.
